(** * USB host-controller framework: the transfer-batch lifecycle

    A shallow embedding of [uspace/lib/usbhost/src/usb_transfer_batch.c]
    together with the properties of its specification.

    The C code manipulates heap objects (batches, endpoints, buses) through
    pointers and calls into collaborators that live elsewhere: the endpoint
    reference counter, the libc allocator, the logger, the host-controller
    backend reached through the bus operation tables, and the completion
    callback stored in each batch.  The embedding is a state-and-fault monad
    over an explicit object store; every call that leaves the file is
    recorded, in order, in a trace. *)

From Stdlib Require Import ZArith List Permutation Ascii.
From stdpp Require Import gmap list strings.

Set Default Proof Using "Type".
Open Scope Z_scope.

(** ** Pointers and plain data *)

(** Object and function addresses.  [NULL] is address zero. *)
Abbreviation ptr := N.
Definition NULL : ptr := 0%N.

Definition is_null (p : ptr) : bool := N.eqb p NULL.

(** Modelled from the spec: [errno.h] is not among the sources.  The success
    outcome is the zero status, as the tests [if (err)] and
    [batch->error != EOK] of the source presuppose. *)
Definition EOK : Z := 0.

(** Modelled from the spec: [usb_target_t] is declared outside the sources.
    The device target carried by a batch: device address and endpoint
    number. *)
Record usb_target_t := mk_target {
  address : Z;
  endpoint : Z
}.

(** Modelled from the spec: [toggle_reset_mode_t] is declared outside the
    sources, which name [RESET_NONE] and [RESET_ALL]; the third mode resets
    the toggle of the one endpoint.  [RESET_NONE] is the value a zeroed batch
    holds. *)
Inductive toggle_reset_mode_t := RESET_NONE | RESET_EP | RESET_ALL.

Definition toggle_reset_mode_eqb (a b : toggle_reset_mode_t) : bool :=
  match a, b with
  | RESET_NONE, RESET_NONE | RESET_EP, RESET_EP | RESET_ALL, RESET_ALL => true
  | _, _ => false
  end.

Inductive usb_direction_t := USB_DIRECTION_IN | USB_DIRECTION_OUT | USB_DIRECTION_BOTH.

(** Modelled from the spec: [usb_transfer_batch.h] is not among the sources.
    The record has the fields the source reads and writes ([ep], [error],
    [toggle_reset_mode], [target], [on_complete], [on_complete_data],
    [transfered_size]) and the remaining ones the spec's data model lists
    (direction, buffer descriptor, requested size). *)
Record usb_transfer_batch_t := mk_batch {
  ep : ptr;
  dir : usb_direction_t;
  buffer : ptr;
  buffer_size : N;
  transfered_size : N;
  error : Z;
  toggle_reset_mode : toggle_reset_mode_t;
  target : usb_target_t;
  on_complete : ptr;
  on_complete_data : ptr
}.

(** What [calloc(1, sizeof(usb_transfer_batch_t))] hands out: every field zero. *)
Definition zero_batch : usb_transfer_batch_t :=
  {| ep := NULL; dir := USB_DIRECTION_IN; buffer := NULL; buffer_size := 0%N;
     transfered_size := 0%N; error := 0; toggle_reset_mode := RESET_NONE;
     target := mk_target 0 0; on_complete := NULL; on_complete_data := NULL |}.

(** [batch->ep = e] *)
Definition set_ep (e : ptr) (b : usb_transfer_batch_t) : usb_transfer_batch_t :=
  {| ep := e; dir := dir b; buffer := buffer b; buffer_size := buffer_size b;
     transfered_size := transfered_size b; error := error b;
     toggle_reset_mode := toggle_reset_mode b; target := target b;
     on_complete := on_complete b; on_complete_data := on_complete_data b |}.

(** [batch->error = e] *)
Definition set_error (e : Z) (b : usb_transfer_batch_t) : usb_transfer_batch_t :=
  {| ep := ep b; dir := dir b; buffer := buffer b; buffer_size := buffer_size b;
     transfered_size := transfered_size b; error := e;
     toggle_reset_mode := toggle_reset_mode b; target := target b;
     on_complete := on_complete b; on_complete_data := on_complete_data b |}.

(** Modelled from the spec: [endpoint.h] is not among the sources.  An
    endpoint has its owning bus and its reference count (the device target
    fields play no part in the batch code). *)
Record endpoint_t := mk_endpoint {
  bus : ptr;
  refcnt : nat
}.

(** Modelled from the spec: [bus.h] is not among the sources.  One operation
    table of a backend; an operation the backend does not provide is [NULL]. *)
Record bus_ops_t := mk_bus_ops {
  batch_create : ptr;
  batch_destroy : ptr;
  reset_toggle : ptr
}.

(** Modelled from the spec: [bus_t] is declared in [bus.h], outside the
    sources.  A bus points to its operation tables: the backend's own table
    first, then the tables it inherits from, most specific first. *)
Record bus_t := mk_bus {
  ops : list bus_ops_t
}.

(** ** The object store, the trace and the monad *)

Record heap := mk_heap {
  batches : gmap N usb_transfer_batch_t;
  endpoints : gmap N endpoint_t;
  buses : gmap N bus_t;
  (** number of batch-sized blocks the allocator can still hand out *)
  mem_avail : nat
}.

Inductive log_msg :=
| MsgResets (batch : ptr) (all : bool)
| MsgDestroying (batch : ptr)
| MsgDisposing (batch : ptr)
| MsgFinishing (batch : ptr)
| MsgFailedToComplete (batch : ptr) (err : Z).

(** Calls leaving [usb_transfer_batch.c], in the order they are made. *)
Inductive event :=
| EvLogDebug2 (m : log_msg)
| EvLogWarning (m : log_msg)
| EvCalloc (p : ptr)
| EvFree (p : ptr)
| EvAddRef (e : ptr)
| EvDelRef (e : ptr)
| EvEndpointTeardown (e : ptr)
| EvBatchCreate (fn e : ptr)
| EvBatchDestroy (fn batch : ptr)
| EvResetToggle (b : ptr) (t : usb_target_t) (mode : toggle_reset_mode_t)
| EvOnComplete (fn data : ptr) (err : Z) (size : N).

Record world := mk_world {
  w_heap : heap;
  w_trace : list event
}.

(** A call either returns ([Done]) or stops the task ([Fault]: a failed
    [assert], an access through a pointer to no live object, a reference
    count underflow).  Both carry the world as it is at that point. *)
Inductive outcome (A : Type) :=
| Done (a : A) (w : world)
| Fault (w : world).
Arguments Done {A} a w.
Arguments Fault {A} w.

Definition world_of {A} (o : outcome A) : world :=
  match o with Done _ w => w | Fault w => w end.

Definition M (A : Type) : Type := world -> outcome A.

Definition ret {A} (a : A) : M A := fun w => Done a w.

Definition bind {A B} (m : M A) (k : A -> M B) : M B :=
  fun w => match m w with
           | Done a w' => k a w'
           | Fault w' => Fault w'
           end.

Definition fault {A} : M A := fun w => Fault w.

Declare Scope batch_scope.
Delimit Scope batch_scope with batch.
Notation "x <- m ;; k" := (bind m (fun x => k))
  (at level 100, m at next level, right associativity) : batch_scope.
Notation "m ;; k" := (bind m (fun _ => k))
  (at level 100, right associativity) : batch_scope.
Open Scope batch_scope.

(** [assert(c)] *)
Definition assert_ (c : bool) : M unit := if c then ret tt else fault.

Definition emit (e : event) : M unit :=
  fun w => Done tt {| w_heap := w_heap w; w_trace := w_trace w ++ [e] |}.

Definition usb_log_debug2 (m : log_msg) : M unit := emit (EvLogDebug2 m).
Definition usb_log_warning (m : log_msg) : M unit := emit (EvLogWarning m).

(** A call into a collaborator: the call is recorded, then the collaborator
    runs on the object store and returns. *)
Definition call {A} (e : event) (f : heap -> A * heap) : M A :=
  fun w => let '(a, h) := f (w_heap w) in
           Done a {| w_heap := h; w_trace := w_trace w ++ [e] |}.

Definition set_batches (bs : gmap N usb_transfer_batch_t) (h : heap) : heap :=
  {| batches := bs; endpoints := endpoints h; buses := buses h;
     mem_avail := mem_avail h |}.

Definition set_endpoints (es : gmap N endpoint_t) (h : heap) : heap :=
  {| batches := batches h; endpoints := es; buses := buses h;
     mem_avail := mem_avail h |}.

Definition set_mem_avail (n : nat) (h : heap) : heap :=
  {| batches := batches h; endpoints := endpoints h; buses := buses h;
     mem_avail := n |}.

Definition with_heap (f : heap -> heap) (w : world) : world :=
  {| w_heap := f (w_heap w); w_trace := w_trace w |}.

Definition update_heap (f : heap -> heap) : M unit :=
  fun w => Done tt (with_heap f w).

(** Reading [*batch]. *)
Definition load_batch (batch : ptr) : M usb_transfer_batch_t :=
  fun w => match batches (w_heap w) !! batch with
           | Some b => Done b w
           | None => Fault w
           end.

(** Writing [*batch]. *)
Definition store_batch (batch : ptr) (b : usb_transfer_batch_t) : M unit :=
  fun w => match batches (w_heap w) !! batch with
           | Some _ => Done tt (with_heap (fun h => set_batches (<[batch := b]> (batches h)) h) w)
           | None => Fault w
           end.

Definition load_endpoint (e : ptr) : M endpoint_t :=
  fun w => match endpoints (w_heap w) !! e with
           | Some x => Done x w
           | None => Fault w
           end.

Definition load_bus (b : ptr) : M bus_t :=
  fun w => match buses (w_heap w) !! b with
           | Some x => Done x w
           | None => Fault w
           end.

(** An address no live object occupies, and not [NULL]. *)
Definition fresh_block (h : heap) : ptr :=
  fresh ({[NULL]} ∪ dom (batches h) ∪ dom (endpoints h) ∪ dom (buses h) : gset N).

(** [calloc(1, sizeof(usb_transfer_batch_t))]: [NULL] when memory is
    exhausted, else a fresh zeroed block. *)
Definition calloc_batch : M ptr :=
  fun w =>
    let h := w_heap w in
    match mem_avail h with
    | O => Done NULL {| w_heap := h; w_trace := w_trace w ++ [EvCalloc NULL] |}
    | S n =>
        let p := fresh_block h in
        Done p {| w_heap := set_mem_avail n (set_batches (<[p := zero_batch]> (batches h)) h);
                  w_trace := w_trace w ++ [EvCalloc p] |}
    end.

(** [free(batch)] of a block obtained from the allocator. *)
Definition free_batch (batch : ptr) : M unit :=
  fun w =>
    let h := w_heap w in
    match batches h !! batch with
    | Some _ =>
        Done tt {| w_heap := set_mem_avail (S (mem_avail h)) (set_batches (delete batch (batches h)) h);
                   w_trace := w_trace w ++ [EvFree batch] |}
    | None => Fault {| w_heap := h; w_trace := w_trace w ++ [EvFree batch] |}
    end.

(** ** The endpoint interface *)

(** Modelled from the spec: [endpoint_add_ref] is defined outside the
    sources.  It increments the reference count and cannot fail on a live
    endpoint. *)
Definition endpoint_add_ref (e : ptr) : M unit :=
  emit (EvAddRef e);;
  x <- load_endpoint e;;
  update_heap (fun h =>
    set_endpoints (<[e := mk_endpoint (bus x) (S (refcnt x))]> (endpoints h)) h).

(** Modelled from the spec: [endpoint_del_ref] is defined outside the
    sources.  It decrements the reference count; reaching zero triggers the
    endpoint teardown, which is handed to the backend's release hook (recorded
    in the trace); decrementing below zero is a contract violation. *)
Definition endpoint_del_ref (e : ptr) : M unit :=
  emit (EvDelRef e);;
  x <- load_endpoint e;;
  match refcnt x with
  | O => fault
  | S n =>
      update_heap (fun h =>
        set_endpoints (<[e := mk_endpoint (bus x) n]> (endpoints h)) h);;
      match n with
      | O => emit (EvEndpointTeardown e)
      | S _ => ret tt
      end
  end.

(** Modelled from the spec: [endpoint_get_bus] is defined outside the
    sources.  It returns the owning bus and has no side effect. *)
Definition endpoint_get_bus (e : ptr) : M ptr :=
  x <- load_endpoint e;;
  ret (bus x).

(** Modelled from the spec: the macro [BUS_OPS_LOOKUP] is defined in [bus.h],
    outside the sources.  An operation a backend does not override is absent
    from its table; the lookup yields the first table, from the bus's own one
    along the tables it inherits from, that provides the operation, or no
    table ([NULL]) when none does. *)
Definition BUS_OPS_LOOKUP (start : list bus_ops_t) (fn : bus_ops_t -> ptr)
  : option bus_ops_t :=
  List.find (fun o => negb (is_null (fn o))) start.

(** ** The collaborators behind function pointers *)

(** What the code cannot see: the functions its function pointers lead to and
    the value of the one error code it stores.  A collaborator runs on the
    object store and returns; it has no access to the trace. *)
Record environment := mk_environment {
  (** [errno.h], not among the sources: the cancelled-or-timed-out error *)
  EAGAIN : Z;
  (** [ops->batch_create(ep)], by function address *)
  hc_batch_create : ptr -> ptr -> heap -> ptr * heap;
  (** [ops->batch_destroy(batch)], by function address *)
  hc_batch_destroy : ptr -> ptr -> heap -> unit * heap;
  (** [bus_reset_toggle(bus, target, mode)] of [bus.c] *)
  bus_reset_toggle : ptr -> usb_target_t -> toggle_reset_mode_t -> heap -> Z * heap;
  (** [batch->on_complete(data, error, size)], by function address *)
  on_complete_fn : ptr -> ptr -> Z -> N -> heap -> Z * heap
}.

(** ** usb_transfer_batch.c *)

Section TransferBatch.

Variable env : environment.

(** Initialize given batch structure. *)
Definition usb_transfer_batch_init (batch e : ptr) : M unit :=
  assert_ (negb (is_null e));;
  endpoint_add_ref e;;
  b <- load_batch batch;;
  store_batch batch (set_ep e b).

(** Create a batch on given endpoint. *)
Definition usb_transfer_batch_create (e : ptr) : M ptr :=
  assert_ (negb (is_null e));;
  bus_p <- endpoint_get_bus e;;
  bus_v <- load_bus bus_p;;
  match BUS_OPS_LOOKUP (ops bus_v) batch_create with
  | None =>
      batch <- calloc_batch;;
      usb_transfer_batch_init batch e;;
      ret batch
  | Some o =>
      call (EvBatchCreate (batch_create o) e) (hc_batch_create env (batch_create o) e)
  end.

(** Resolve resetting toggle. *)
Definition usb_transfer_batch_reset_toggle (batch : ptr) : M Z :=
  assert_ (negb (is_null batch));;
  b <- load_batch batch;;
  if negb (Z.eqb (error b) EOK) || toggle_reset_mode_eqb (toggle_reset_mode b) RESET_NONE
  then ret EOK
  else
    usb_log_debug2 (MsgResets batch (toggle_reset_mode_eqb (toggle_reset_mode b) RESET_ALL));;
    bus_p <- endpoint_get_bus (ep b);;
    call (EvResetToggle bus_p (target b) (toggle_reset_mode b))
         (bus_reset_toggle env bus_p (target b) (toggle_reset_mode b)).

(** Destroy the batch. *)
Definition usb_transfer_batch_destroy (batch : ptr) : M unit :=
  assert_ (negb (is_null batch));;
  b <- load_batch batch;;
  assert_ (negb (is_null (ep b)));;
  bus_p <- endpoint_get_bus (ep b);;
  bus_v <- load_bus bus_p;;
  let ops := BUS_OPS_LOOKUP (ops bus_v) batch_destroy in
  endpoint_del_ref (ep b);;
  match ops with
  | Some o =>
      usb_log_debug2 (MsgDestroying batch);;
      call (EvBatchDestroy (batch_destroy o) batch) (hc_batch_destroy env (batch_destroy o) batch)
  | None =>
      usb_log_debug2 (MsgDisposing batch);;
      free_batch batch
  end.

(** Finish a transfer batch: call handler, destroy batch, release endpoint. *)
Definition usb_transfer_batch_finish (batch : ptr) : M unit :=
  assert_ (negb (is_null batch));;
  b <- load_batch batch;;
  assert_ (negb (is_null (ep b)));;
  usb_log_debug2 (MsgFinishing batch);;
  (if negb (is_null (on_complete b)) then
     err <- call (EvOnComplete (on_complete b) (on_complete_data b) (error b) (transfered_size b))
                 (on_complete_fn env (on_complete b) (on_complete_data b) (error b) (transfered_size b));;
     if negb (Z.eqb err 0) then usb_log_warning (MsgFailedToComplete batch err) else ret tt
   else ret tt);;
  usb_transfer_batch_destroy batch.

(** Finish a transfer batch as an aborted one. *)
Definition usb_transfer_batch_abort (batch : ptr) : M unit :=
  assert_ (negb (is_null batch));;
  b <- load_batch batch;;
  assert_ (negb (is_null (ep b)));;
  store_batch batch (set_error (EAGAIN env) b);;
  usb_transfer_batch_finish batch.

End TransferBatch.

(** ** Reading traces *)

Definition is_on_complete (e : event) : bool :=
  match e with EvOnComplete _ _ _ _ => true | _ => false end.

Definition is_del_ref (e : event) : bool :=
  match e with EvDelRef _ => true | _ => false end.

Definition is_add_ref (e : event) : bool :=
  match e with EvAddRef _ => true | _ => false end.

Definition is_reset_toggle (e : event) : bool :=
  match e with EvResetToggle _ _ _ => true | _ => false end.

(** The events selected by [p], in order. *)
Definition select (p : event -> bool) (t : list event) : list event := List.filter p t.

(** The world after one more slice of trace and with another store. *)
Definition after (h : heap) (t : list event) (w : world) : world :=
  {| w_heap := h; w_trace := w_trace w ++ t |}.

(** The reference count of endpoint [e], when it is live. *)
Definition refcount (e : ptr) (w : world) : option nat :=
  refcnt <$> endpoints (w_heap w) !! e.

(** ** Sequences of creations and completions *)

Section Sequences.

Variable env : environment.

(** [n] creations in a row on endpoint [e], collecting the batches. *)
Fixpoint create_batches (n : nat) (e : ptr) : M (list ptr) :=
  match n with
  | O => ret []
  | S k =>
      b <- usb_transfer_batch_create env e;;
      bs <- create_batches k e;;
      ret (b :: bs)
  end.

(** How a backend retires a batch. *)
Inductive completion := ByFinish | ByAbort.

Definition complete (c : completion * ptr) : M unit :=
  match c with
  | (ByFinish, b) => usb_transfer_batch_finish env b
  | (ByAbort, b) => usb_transfer_batch_abort env b
  end.

Fixpoint complete_all (cs : list (completion * ptr)) : M unit :=
  match cs with
  | [] => ret tt
  | c :: cs' => complete c;; complete_all cs'
  end.

End Sequences.


(** ** What backends and callbacks are held to

    The framework cannot balance references on behalf of collaborators that
    tamper with its objects.  These are the obligations the specification
    puts on them. *)

(** A completion callback leaves batches, endpoints and buses alone. *)
Definition callbacks_keep_objects (env : environment) : Prop :=
  forall fn data err size h,
    let h' := snd (on_complete_fn env fn data err size h) in
    batches h' = batches h /\ endpoints h' = endpoints h /\ buses h' = buses h.

(** A destruction override releases the batch it is given and nothing else. *)
Definition destroy_override_releases (env : environment) : Prop :=
  forall fn b h,
    let h' := snd (hc_batch_destroy env fn b h) in
    batches h' = delete b (batches h) /\
    endpoints h' = endpoints h /\ buses h' = buses h.


(** A computation is quiet for [p] when it adds no event selected by [p]
    to the trace, however it ends. *)
Definition quiet (p : event -> bool) {A} (m : M A) : Prop :=
  forall w, select p (w_trace (world_of (m w))) = select p (w_trace w).

(** The outcome [o] seen from a caller whose trace so far was [t]. *)
Definition prepend {A} (t : list event) (o : outcome A) : outcome A :=
  match o with
  | Done a w => Done a {| w_heap := w_heap w; w_trace := t ++ w_trace w |}
  | Fault w => Fault {| w_heap := w_heap w; w_trace := t ++ w_trace w |}
  end.

(** A computation is framed when the trace it starts from only shows up as a
    prefix of the trace it ends with: its course does not depend on what was
    traced before. *)
Definition framed {A} (m : M A) : Prop :=
  forall h t, m (mk_world h t) = prepend t (m (mk_world h [])).

Definition is_warning (e : event) : bool :=
  match e with EvLogWarning _ => true | _ => false end.

(** The environment whose completion callbacks do what those of [env] do but
    all return status [s]. *)
Definition with_status (s : Z) (env : environment) : environment :=
  {| EAGAIN := EAGAIN env;
     hc_batch_create := hc_batch_create env;
     hc_batch_destroy := hc_batch_destroy env;
     bus_reset_toggle := bus_reset_toggle env;
     on_complete_fn := fun fn data err size h =>
                         (s, snd (on_complete_fn env fn data err size h)) |}.

Definition not_warning (e : event) : bool := negb (is_warning e).

(** Two outcomes that end the same way, on the same store, with the same
    trace once warnings are left out. *)
Definition same_but_warnings {A} (o1 o2 : outcome A) : Prop :=
  match o1, o2 with
  | Done a1 w1, Done a2 w2 =>
      a1 = a2 /\ w_heap w1 = w_heap w2 /\
      select not_warning (w_trace w1) = select not_warning (w_trace w2)
  | Fault w1, Fault w2 =>
      w_heap w1 = w_heap w2 /\
      select not_warning (w_trace w1) = select not_warning (w_trace w2)
  | _, _ => False
  end.

(** The events [finish] itself adds before it hands over to [destroy], when
    the callback returned [status]. *)
Definition finish_events (batch : ptr) (b : usb_transfer_batch_t) (status : Z) : list event :=
  [EvLogDebug2 (MsgFinishing batch);
   EvOnComplete (on_complete b) (on_complete_data b) (error b) (transfered_size b)] ++
  (if Z.eqb status 0 then [] else [EvLogWarning (MsgFailedToComplete batch status)]).

(** The store after a successful generic creation on [e]: one block less in
    the allocator, a zeroed batch bound to [e] at the fresh address, one more
    reference on [e]. *)
Definition created_heap (e : ptr) (x : endpoint_t) (m : nat) (h : heap) : heap :=
  {| batches := <[fresh_block h := set_ep e zero_batch]> (batches h);
     endpoints := <[e := mk_endpoint (bus x) (S (refcnt x))]> (endpoints h);
     buses := buses h;
     mem_avail := m |}.

(** ** A sample backend

    Used to run the code on concrete inputs: a host controller that embeds
    each batch in a descriptor of its own (allocating it and calling the
    initializer's steps), releases exactly that descriptor on destruction,
    resets toggles successfully, and whose completion callback reports the
    error it was handed. *)

Definition embedding_batch_create (fn e : ptr) (h : heap) : ptr * heap :=
  match endpoints h !! e with
  | Some x =>
      let p := fresh_block h in
      (p, set_endpoints (<[e := mk_endpoint (bus x) (S (refcnt x))]> (endpoints h))
            (set_batches (<[p := set_ep e zero_batch]> (batches h)) h))
  | None => (NULL, h)
  end.

Definition embedding_batch_destroy (fn batch : ptr) (h : heap) : unit * heap :=
  (tt, set_batches (delete batch (batches h)) h).

Definition sample_env : environment :=
  {| EAGAIN := -11002;
     hc_batch_create := embedding_batch_create;
     hc_batch_destroy := embedding_batch_destroy;
     bus_reset_toggle := fun _ _ _ h => (EOK, h);
     on_complete_fn := fun _ _ err _ h => (err, h) |}.



(** A backend whose allocation override is out of descriptors. *)
Definition exhausted_env : environment :=
  {| EAGAIN := -11002;
     hc_batch_create := fun _ _ h => (NULL, h);
     hc_batch_destroy := embedding_batch_destroy;
     bus_reset_toggle := fun _ _ _ h => (EOK, h);
     on_complete_fn := fun _ _ err _ h => (err, h) |}.

(** Bus 100 has no override at all; bus 200 overrides allocation and
    destruction (functions 71 and 72) in the table it inherits from.
    Endpoint 10 sits on bus 100, endpoint 20 on bus 200; each is held by its
    owner (count 1). *)
Definition generic_bus : bus_t := mk_bus [mk_bus_ops NULL NULL 73%N].
Definition embedding_bus : bus_t :=
  mk_bus [mk_bus_ops NULL NULL 73%N; mk_bus_ops 71%N 72%N NULL].

Definition sample_heap (avail : nat) : heap :=
  {| batches := ∅;
     endpoints := <[10%N := mk_endpoint 100%N 1]> (<[20%N := mk_endpoint 200%N 1]> ∅);
     buses := <[100%N := generic_bus]> (<[200%N := embedding_bus]> ∅);
     mem_avail := avail |}.

Definition sample_world (avail : nat) : world := mk_world (sample_heap avail) [].

(** A completed batch at address 1 on endpoint 10, as a backend leaves it. *)
Definition sample_batch (err : Z) (mode : toggle_reset_mode_t) (done_ : N) (cb : ptr)
  : usb_transfer_batch_t :=
  {| ep := 10%N; dir := USB_DIRECTION_IN; buffer := 500%N; buffer_size := 64%N;
     transfered_size := done_; error := err; toggle_reset_mode := mode;
     target := mk_target 3 1; on_complete := cb; on_complete_data := 900%N |}.

Definition world_with_batch (b : usb_transfer_batch_t) : world :=
  mk_world (set_endpoints (<[10%N := mk_endpoint 100%N 2]> (endpoints (sample_heap 4)))
              (set_batches (<[1%N := b]> ∅) (sample_heap 4))) [].

(** ** Classes of events *)

(** Calls that take something: a reference, memory, a backend descriptor. *)
Definition is_acquire (e : event) : bool :=
  match e with
  | EvAddRef _ | EvCalloc _ | EvBatchCreate _ _ => true
  | _ => false
  end.

(** Calls that give something back, and the teardown a last release starts. *)
Definition is_release (e : event) : bool :=
  match e with
  | EvDelRef _ | EvFree _ | EvBatchDestroy _ _ | EvEndpointTeardown _ => true
  | _ => false
  end.

(** Everything but debug messages and toggle resets. *)
Definition beyond_toggle_reset (e : event) : bool :=
  match e with
  | EvLogDebug2 _ | EvResetToggle _ _ _ => false
  | _ => true
  end.

(** * The navigator application ([uspace/app/nav/nav.c])

    The navigator allocates one [navigator_t], builds its user interface
    through the UI library and tears it down again.  The UI library, the menu
    module and libc are collaborators: each call is recorded with what it
    returned, and what it returns is given by an oracle; a collaborator
    writes to the navigator only through the out-parameter it is given. *)

Module Nav.

(** [navigator_t], declared in [nav.h] outside the sources: the fields the
    source uses. *)
Record navigator_t := mk_navigator {
  ui : ptr;
  window : ptr;
  fixed : ptr;
  menu : ptr
}.

Definition zero_navigator : navigator_t := mk_navigator NULL NULL NULL NULL.

Definition set_ui (v : ptr) (n : navigator_t) : navigator_t :=
  mk_navigator v (window n) (fixed n) (menu n).
Definition set_window (v : ptr) (n : navigator_t) : navigator_t :=
  mk_navigator (ui n) v (fixed n) (menu n).
Definition set_fixed (v : ptr) (n : navigator_t) : navigator_t :=
  mk_navigator (ui n) (window n) v (menu n).
Definition set_menu (v : ptr) (n : navigator_t) : navigator_t :=
  mk_navigator (ui n) (window n) (fixed n) v.

(** [ui_wnd_params_t], declared in the UI library: the fields the source
    writes. *)
Record ui_wnd_params_t := mk_params {
  caption : string;
  style : Z;
  placement : Z
}.

(** What the program prints. *)
Inductive message :=
| ErrorCreatingUI (display_spec : string)
| ErrorCreatingWindow
| ErrorCreatingFixedLayout
| ErrorPaintingWindow
| ArgumentMissing
| InvalidOption (opt : string)
| Syntax.

(** Calls leaving [nav.c]; a creating call is recorded with the status it
    returned and the handle it left in its out-parameter. *)
Inductive event :=
| EvCalloc (p : ptr)
| EvFree (p : ptr)
| EvPrintf (m : message)
| EvUiCreate (display_spec : string) (rc : Z) (h : ptr)
| EvUiWndParamsInit
| EvUiWindowCreate (ui_h : ptr) (params : ui_wnd_params_t) (rc : Z) (h : ptr)
| EvUiWindowSetCb (window_h : ptr) (arg : ptr)
| EvUiFixedCreate (rc : Z) (h : ptr)
| EvUiWindowAdd (window_h ctl : ptr)
| EvNavMenuCreate (navigator : ptr) (rc : Z) (h : ptr)
| EvUiWindowPaint (window_h : ptr) (rc : Z)
| EvUiRun (ui_h : ptr)
| EvNavMenuDestroy (h : ptr)
| EvUiWindowDestroy (h : ptr)
| EvUiDestroy (h : ptr).

(** The constants and functions [nav.c] takes from elsewhere. *)
Record environment := mk_environment {
  ENOMEM : Z;
  UI_CONSOLE_DEFAULT : string;
  ui_wds_decorated : Z;
  ui_wnd_place_full_screen : Z;
  (** what [ui_wnd_params_init] stores *)
  ui_wnd_params_init : ui_wnd_params_t;
  (** status and handle stored, per call *)
  ui_create : string -> Z * ptr;
  ui_window_create : ptr -> ui_wnd_params_t -> Z * ptr;
  ui_fixed_create : Z * ptr;
  ui_fixed_ctl : ptr -> ptr;
  nav_menu_create : ptr -> Z * ptr;
  ui_window_paint : ptr -> Z
}.

Record state := mk_state {
  navigators : gmap N navigator_t;
  (** number of blocks the allocator can still hand out *)
  avail : nat;
  trace : list event
}.

(** State passing; [None] is an access to a navigator that is not live. *)
Definition NM (A : Type) : Type := state -> option (A * state).

Definition ret {A} (a : A) : NM A := fun st => Some (a, st).

Definition bind {A B} (m : NM A) (k : A -> NM B) : NM B :=
  fun st => match m st with
            | Some (a, st') => k a st'
            | None => None
            end.

Declare Scope nav_scope.
Delimit Scope nav_scope with nav.
Notation "x <- m ;; k" := (bind m (fun x => k))
  (at level 100, m at next level, right associativity) : nav_scope.
Notation "m ;; k" := (bind m (fun _ => k))
  (at level 100, right associativity) : nav_scope.
Local Open Scope nav_scope.

Definition emit (e : event) : NM unit :=
  fun st => Some (tt, mk_state (navigators st) (avail st) (trace st ++ [e])).

Definition printf (m : message) : NM unit := emit (EvPrintf m).

Definition load (p : ptr) : NM navigator_t :=
  fun st => match navigators st !! p with
            | Some n => Some (n, st)
            | None => None
            end.

(** A write to one field of [*p]. *)
Definition update (p : ptr) (f : navigator_t -> navigator_t) : NM unit :=
  fun st => match navigators st !! p with
            | Some n => Some (tt, mk_state (<[p := f n]> (navigators st)) (avail st) (trace st))
            | None => None
            end.

(** [calloc(1, sizeof(navigator_t))] *)
Definition calloc : NM ptr :=
  fun st =>
    match avail st with
    | O => Some (NULL, mk_state (navigators st) O (trace st ++ [EvCalloc NULL]))
    | S k =>
        let p := fresh ({[NULL]} ∪ dom (navigators st) : gset N) in
        Some (p, mk_state (<[p := zero_navigator]> (navigators st)) k
                   (trace st ++ [EvCalloc p]))
    end.

Definition free (p : ptr) : NM unit :=
  fun st => match navigators st !! p with
            | Some _ => Some (tt, mk_state (delete p (navigators st)) (S (avail st))
                                    (trace st ++ [EvFree p]))
            | None => None
            end.

Section Navigator.

Variable env : environment.

Definition navigator_destroy (navigator : ptr) : NM unit :=
  n <- load navigator;;
  (if negb (is_null (menu n)) then emit (EvNavMenuDestroy (menu n)) else ret tt);;
  (if negb (is_null (window n)) then emit (EvUiWindowDestroy (window n)) else ret tt);;
  (if negb (is_null (ui n)) then emit (EvUiDestroy (ui n)) else ret tt);;
  free navigator.

(** The [error:] label of [navigator_create]. *)
Definition navigator_create_error (navigator : ptr) (rc : Z) : NM (Z * option ptr) :=
  navigator_destroy navigator;;
  ret (rc, None).

(** Create navigator.  The result is the status and what was stored in
    [*rnavigator], if anything. *)
Definition navigator_create (display_spec : string) : NM (Z * option ptr) :=
  navigator <- calloc;;
  if is_null navigator then ret (ENOMEM env, None)
  else
    let '(rc, h) := ui_create env display_spec in
    emit (EvUiCreate display_spec rc h);;
    update navigator (set_ui h);;
    if negb (Z.eqb rc EOK) then
      printf (ErrorCreatingUI display_spec);;
      navigator_create_error navigator rc
    else
      emit EvUiWndParamsInit;;
      let params := ui_wnd_params_init env in
      let params := mk_params "Navigator" (style params) (placement params) in
      let params := mk_params (caption params)
                      (Z.land (style params) (Z.lnot (ui_wds_decorated env)))
                      (placement params) in
      let params := mk_params (caption params) (style params)
                      (ui_wnd_place_full_screen env) in
      n <- load navigator;;
      let '(rc, h) := ui_window_create env (ui n) params in
      emit (EvUiWindowCreate (ui n) params rc h);;
      update navigator (set_window h);;
      if negb (Z.eqb rc EOK) then
        printf ErrorCreatingWindow;;
        navigator_create_error navigator rc
      else
        n <- load navigator;;
        emit (EvUiWindowSetCb (window n) navigator);;
        let '(rc, h) := ui_fixed_create env in
        emit (EvUiFixedCreate rc h);;
        update navigator (set_fixed h);;
        if negb (Z.eqb rc EOK) then
          printf ErrorCreatingFixedLayout;;
          navigator_create_error navigator rc
        else
          n <- load navigator;;
          emit (EvUiWindowAdd (window n) (ui_fixed_ctl env (fixed n)));;
          let '(rc, h) := nav_menu_create env navigator in
          emit (EvNavMenuCreate navigator rc h);;
          update navigator (set_menu h);;
          if negb (Z.eqb rc EOK) then
            navigator_create_error navigator rc
          else
            n <- load navigator;;
            let rc := ui_window_paint env (window n) in
            emit (EvUiWindowPaint (window n) rc);;
            if negb (Z.eqb rc EOK) then
              printf ErrorPaintingWindow;;
              navigator_create_error navigator rc
            else
              ret (EOK, Some navigator).

(** Run navigator on the specified display. *)
Definition navigator_run (display_spec : string) : NM Z :=
  r <- navigator_create display_spec;;
  let '(rc, rnavigator) := r in
  if negb (Z.eqb rc EOK) then ret rc
  else
    match rnavigator with
    | None => fun _ => None
    | Some navigator =>
        n <- load navigator;;
        emit (EvUiRun (ui n));;
        navigator_destroy navigator;;
        ret EOK
    end.

Definition print_syntax : NM unit := printf Syntax.

(** [argv[i][0] == '-'] *)
Definition starts_with_dash (arg : string) : bool :=
  match arg with
  | String c _ => Ascii.eqb c "-"%char
  | EmptyString => false
  end.

(** The option loop of [main] and the test that follows it, on the arguments
    from [argv[i]] on: the display specification to run on, or nothing when
    [main] returns 1 from here. *)
Fixpoint main_options (rest : list string) (display_spec : string) : NM (option string) :=
  match rest with
  | [] => ret (Some display_spec)
  | arg :: rest' =>
      if starts_with_dash arg then
        if String.eqb arg "-d" then
          match rest' with
          | [] =>
              printf ArgumentMissing;;
              print_syntax;;
              ret None
          | spec :: rest'' => main_options rest'' spec
          end
        else
          printf (InvalidOption arg);;
          print_syntax;;
          ret None
      else
        print_syntax;;
        ret None
  end.

Definition main (argv : list string) : NM Z :=
  o <- main_options (tail argv) (UI_CONSOLE_DEFAULT env);;
  match o with
  | None => ret 1
  | Some display_spec =>
      rc <- navigator_run display_spec;;
      if negb (Z.eqb rc EOK) then ret 1 else ret 0
  end.

End Navigator.

(** What [navigator_destroy] calls on a navigator with fields [n] before it
    frees the block. *)
Definition destroy_events (n : navigator_t) : list event :=
  (if negb (is_null (menu n)) then [EvNavMenuDestroy (menu n)] else []) ++
  (if negb (is_null (window n)) then [EvUiWindowDestroy (window n)] else []) ++
  (if negb (is_null (ui n)) then [EvUiDestroy (ui n)] else []).

Definition is_ui_run (e : event) : bool :=
  match e with EvUiRun _ => true | _ => false end.

(** The window parameters [nav.c] asks for: the library's defaults with the
    caption set, the decoration bits cleared and full-screen placement. *)
Definition navigator_window_params (env : environment) (p : ui_wnd_params_t) : Prop :=
  caption p = "Navigator"%string /\
  placement p = ui_wnd_place_full_screen env /\
  Z.land (style p) (ui_wds_decorated env) = 0 /\
  forall i, 0 <= i ->
    Z.testbit (style p) i =
    Z.testbit (style (ui_wnd_params_init env)) i && negb (Z.testbit (ui_wds_decorated env) i).

Definition window_created_with (env : environment) (e : event) : Prop :=
  match e with
  | EvUiWindowCreate _ p _ _ => navigator_window_params env p
  | _ => True
  end.

(** A resource of the UI: what was created and must be destroyed. *)
Inductive resource := RUi (h : ptr) | RWindow (h : ptr) | RMenu (h : ptr).

(** The resources the creating calls of a trace handed out, in order. *)
Definition acquired (t : list event) : list resource :=
  flat_map (fun e => match e with
                     | EvUiCreate _ rc h => if Z.eqb rc EOK then [RUi h] else []
                     | EvUiWindowCreate _ _ rc h => if Z.eqb rc EOK then [RWindow h] else []
                     | EvNavMenuCreate _ rc h => if Z.eqb rc EOK then [RMenu h] else []
                     | _ => []
                     end) t.

(** The resources the destroying calls of a trace gave back, in order. *)
Definition released (t : list event) : list resource :=
  flat_map (fun e => match e with
                     | EvUiDestroy h => [RUi h]
                     | EvUiWindowDestroy h => [RWindow h]
                     | EvNavMenuDestroy h => [RMenu h]
                     | _ => []
                     end) t.

(** The collaborators keep to the usual convention: a creating call stores a
    handle exactly when it succeeds, and running out of memory is an
    error. *)
Definition conventional (env : environment) : Prop :=
  ENOMEM env <> EOK /\
  (forall spec, (fst (ui_create env spec) = EOK <-> snd (ui_create env spec) <> NULL)) /\
  (forall u p, (fst (ui_window_create env u p) = EOK <-> snd (ui_window_create env u p) <> NULL)) /\
  (forall n, (fst (nav_menu_create env n) = EOK <-> snd (nav_menu_create env n) <> NULL)).

(** The arguments [main] accepts after the program name: any number of
    [-d <display-spec>] pairs. *)
Definition option_pairs (specs : list string) : list string :=
  flat_map (fun spec => ["-d"%string; spec]) specs.

Definition is_printf (e : event) : bool :=
  match e with EvPrintf _ => true | _ => false end.

(** A UI library in which everything succeeds, and one whose window cannot
    be painted. *)
Definition working_ui : environment :=
  {| ENOMEM := -2;
     UI_CONSOLE_DEFAULT := "cons@";
     ui_wds_decorated := 15;
     ui_wnd_place_full_screen := 3;
     ui_wnd_params_init := mk_params "" 31 0;
     ui_create := fun _ => (EOK, 11%N);
     ui_window_create := fun _ _ => (EOK, 12%N);
     ui_fixed_create := (EOK, 13%N);
     ui_fixed_ctl := fun f => f;
     nav_menu_create := fun _ => (EOK, 14%N);
     ui_window_paint := fun _ => EOK |}.

Definition unpaintable_ui : environment :=
  {| ENOMEM := -2;
     UI_CONSOLE_DEFAULT := "cons@";
     ui_wds_decorated := 15;
     ui_wnd_place_full_screen := 3;
     ui_wnd_params_init := mk_params "" 31 0;
     ui_create := fun _ => (EOK, 11%N);
     ui_window_create := fun _ _ => (EOK, 12%N);
     ui_fixed_create := (EOK, 13%N);
     ui_fixed_ctl := fun f => f;
     nav_menu_create := fun _ => (EOK, 14%N);
     ui_window_paint := fun _ => -5 |}.

Definition initial (n : nat) : state := mk_state ∅ n [].

End Nav.

(** * The display server's clients ([uspace/srv/hid/display/client.c])

    A client owns a list of windows and a queue of events.  Both are
    intrusive lists of the C library ([adt/list.h], outside the sources); a
    list is modelled by the sequence of the objects linked into it, in list
    order.  The display's own bookkeeping ([display.c]) and the client's
    callback are collaborators whose calls are recorded; they are taken not
    to touch the windows, clients and queues modelled here. *)

Module Display.

(** The content of a keyboard event, which the code only copies. *)
Abbreviation kbd_event_t := Z.

(** [ds_window_t] ([window.h], outside the sources): the fields the source
    uses.  The link [lwindows] is the window's place in a client's list. *)
Record ds_window_t := mk_window {
  client : ptr;
  id : Z
}.

(** [ds_client_t] ([client.h], outside the sources). *)
Record ds_client_t := mk_client {
  display : ptr;
  windows : list ptr;
  events : list ptr;
  cb : ptr;
  cb_arg : ptr
}.

(** [ds_display_t] ([display.h], outside the sources): the field the source
    uses. *)
Record ds_display_t := mk_display {
  next_wnd_id : Z
}.

(** [ds_window_ev_t]: a queued event and the window it is for. *)
Record ds_window_ev_t := mk_window_ev {
  window : ptr;
  event : kbd_event_t
}.

Inductive call :=
| EvCalloc (p : ptr)
| EvFree (p : ptr)
| EvPrintfFind (wnd_id : Z)
| EvPrintfWnd (wnd : ptr) (wnd_id : Z)
| EvDisplayAddClient (display_p client_p : ptr)
| EvDisplayRemoveClient (client_p : ptr)
| EvPending (cb_p arg : ptr).

(** Constants [client.c] takes from elsewhere: two error codes and the range
    of [ds_wnd_id_t], an unsigned machine word. *)
Record environment := mk_environment {
  ENOMEM : Z;
  ENOENT : Z;
  wnd_id_modulus : Z
}.

Record state := mk_state {
  wnds : gmap N ds_window_t;
  clients : gmap N ds_client_t;
  displays : gmap N ds_display_t;
  wevents : gmap N ds_window_ev_t;
  (** number of blocks the allocator can still hand out *)
  avail : nat;
  trace : list call
}.

(** State passing; [None] is a failed [assert], an access through a pointer
    to no live object, or a loop that was not given enough steps. *)
Definition DM (A : Type) : Type := state -> option (A * state).

Definition ret {A} (a : A) : DM A := fun st => Some (a, st).

Definition bind {A B} (m : DM A) (k : A -> DM B) : DM B :=
  fun st => match m st with
            | Some (a, st') => k a st'
            | None => None
            end.

Definition stop {A} : DM A := fun _ => None.

Declare Scope display_scope.
Delimit Scope display_scope with display.
Notation "x <- m ;; k" := (bind m (fun x => k))
  (at level 100, m at next level, right associativity) : display_scope.
Notation "m ;; k" := (bind m (fun _ => k))
  (at level 100, right associativity) : display_scope.
Local Open Scope display_scope.

Definition assert_ (c : bool) : DM unit := if c then ret tt else stop.

Definition emit (e : call) : DM unit :=
  fun st => Some (tt, mk_state (wnds st) (clients st) (displays st) (wevents st)
                        (avail st) (trace st ++ [e])).

Definition load_window (p : ptr) : DM ds_window_t :=
  fun st => match wnds st !! p with Some v => Some (v, st) | None => None end.

Definition load_client (p : ptr) : DM ds_client_t :=
  fun st => match clients st !! p with Some v => Some (v, st) | None => None end.

Definition load_display (p : ptr) : DM ds_display_t :=
  fun st => match displays st !! p with Some v => Some (v, st) | None => None end.

Definition load_wevent (p : ptr) : DM ds_window_ev_t :=
  fun st => match wevents st !! p with Some v => Some (v, st) | None => None end.

Definition store_window (p : ptr) (v : ds_window_t) : DM unit :=
  fun st => match wnds st !! p with
            | Some _ => Some (tt, mk_state (<[p := v]> (wnds st)) (clients st) (displays st)
                                    (wevents st) (avail st) (trace st))
            | None => None
            end.

Definition store_client (p : ptr) (v : ds_client_t) : DM unit :=
  fun st => match clients st !! p with
            | Some _ => Some (tt, mk_state (wnds st) (<[p := v]> (clients st)) (displays st)
                                    (wevents st) (avail st) (trace st))
            | None => None
            end.

Definition store_display (p : ptr) (v : ds_display_t) : DM unit :=
  fun st => match displays st !! p with
            | Some _ => Some (tt, mk_state (wnds st) (clients st) (<[p := v]> (displays st))
                                    (wevents st) (avail st) (trace st))
            | None => None
            end.


(** An address no live object occupies, and not [NULL]. *)
Definition fresh_block (st : state) : ptr :=
  fresh ({[NULL]} ∪ dom (wnds st) ∪ dom (clients st) ∪ dom (displays st)
         ∪ dom (wevents st) : gset N).

(** [calloc(1, sizeof(ds_client_t))] *)
Definition calloc_client : DM ptr :=
  fun st =>
    match avail st with
    | O => Some (NULL, mk_state (wnds st) (clients st) (displays st) (wevents st) O
                         (trace st ++ [EvCalloc NULL]))
    | S k =>
        let p := fresh_block st in
        Some (p, mk_state (wnds st) (<[p := mk_client NULL [] [] NULL NULL]> (clients st))
                   (displays st) (wevents st) k (trace st ++ [EvCalloc p]))
    end.


Definition free_client (p : ptr) : DM unit :=
  fun st => match clients st !! p with
            | Some _ => Some (tt, mk_state (wnds st) (delete p (clients st)) (displays st)
                                    (wevents st) (S (avail st)) (trace st ++ [EvFree p]))
            | None => None
            end.

Definition free_wevent (p : ptr) : DM unit :=
  fun st => match wevents st !! p with
            | Some _ => Some (tt, mk_state (wnds st) (clients st) (displays st)
                                    (delete p (wevents st)) (S (avail st))
                                    (trace st ++ [EvFree p]))
            | None => None
            end.

(** *** The list operations of [adt/list.h] on sequences *)

(** [list_first]: the first object, or [NULL] when the list is empty. *)
Definition list_first (l : list ptr) : ptr := hd NULL l.

(** [list_next]: the object after [link], or [NULL] when [link] is last. *)
Fixpoint list_next (link : ptr) (l : list ptr) : ptr :=
  match l with
  | [] => NULL
  | x :: l' => if N.eqb x link then hd NULL l' else list_next link l'
  end.

(** [list_append]: link at the tail. *)
Definition list_append (link : ptr) (l : list ptr) : list ptr := l ++ [link].

(** [list_remove]: unlink. *)
Definition list_remove (link : ptr) (l : list ptr) : list ptr :=
  List.filter (fun x => negb (N.eqb x link)) l.

Definition list_empty (l : list ptr) : bool :=
  match l with [] => true | _ => false end.

Definition mem (p : ptr) (l : list ptr) : bool := existsb (N.eqb p) l.

(** [link_used(&wnd->lwindows)]: the window is linked into some client's
    list. *)
Definition link_used (wnd : ptr) (st : state) : bool :=
  existsb (fun pc => mem wnd (windows (snd pc))) (map_to_list (clients st)).

Definition set_windows (l : list ptr) (c : ds_client_t) : ds_client_t :=
  mk_client (display c) l (events c) (cb c) (cb_arg c).

Definition set_events (l : list ptr) (c : ds_client_t) : ds_client_t :=
  mk_client (display c) (windows c) l (cb c) (cb_arg c).

Section Client.

Variable env : environment.

(** Create client. *)
Definition ds_client_create (display_p cb_p cb_arg_p : ptr) : DM (Z * option ptr) :=
  client_p <- calloc_client;;
  if is_null client_p then ret (ENOMEM env, None)
  else
    c <- load_client client_p;;
    store_client client_p (set_windows [] c);;
    c <- load_client client_p;;
    store_client client_p (set_events [] c);;
    c <- load_client client_p;;
    store_client client_p (mk_client (display c) (windows c) (events c) cb_p (cb_arg c));;
    c <- load_client client_p;;
    store_client client_p (mk_client (display c) (windows c) (events c) (cb c) cb_arg_p);;
    emit (EvDisplayAddClient display_p client_p);;
    ret (EOK, Some client_p).

(** Destroy client. *)
Definition ds_client_destroy (client_p : ptr) : DM unit :=
  c <- load_client client_p;;
  assert_ (list_empty (windows c));;
  emit (EvDisplayRemoveClient client_p);;
  free_client client_p.

(** Add window to client. *)
Definition ds_client_add_window (client_p wnd : ptr) : DM Z :=
  w <- load_window wnd;;
  assert_ (is_null (client w));;
  used <- (fun st => Some (link_used wnd st, st));;
  assert_ (negb used);;
  store_window wnd (mk_window client_p (id w));;
  c <- load_client client_p;;
  d <- load_display (display c);;
  w <- load_window wnd;;
  store_window wnd (mk_window (client w) (next_wnd_id d));;
  store_display (display c) (mk_display ((next_wnd_id d + 1) mod wnd_id_modulus env));;
  c <- load_client client_p;;
  store_client client_p (set_windows (list_append wnd (windows c)) c);;
  ret EOK.

(** Remove window from client. *)
Definition ds_client_remove_window (wnd : ptr) : DM unit :=
  w <- load_window wnd;;
  (fun st => Some (tt, mk_state (wnds st)
                         ((fun c => set_windows (list_remove wnd (windows c)) c) <$> clients st)
                         (displays st) (wevents st) (avail st) (trace st)));;
  store_window wnd (mk_window NULL (id w)).

(** Get first window in client. *)
Definition ds_client_first_window (client_p : ptr) : DM ptr :=
  c <- load_client client_p;;
  ret (list_first (windows c)).

(** Get next window in client. *)
Definition ds_client_next_window (wnd : ptr) : DM ptr :=
  w <- load_window wnd;;
  c <- load_client (client w);;
  ret (list_next wnd (windows c)).

(** The [while] loop of [ds_client_find_window], given [steps] iterations. *)
Fixpoint find_window_loop (steps : nat) (wnd : ptr) (wnd_id : Z) : DM ptr :=
  match steps with
  | O => stop
  | S k =>
      if is_null wnd then ret NULL
      else
        w <- load_window wnd;;
        emit (EvPrintfWnd wnd (id w));;
        if Z.eqb (id w) wnd_id then ret wnd
        else
          next <- ds_client_next_window wnd;;
          find_window_loop k next wnd_id
  end.

(** Find window by ID. *)
Definition ds_client_find_window (steps : nat) (client_p : ptr) (wnd_id : Z) : DM ptr :=
  emit (EvPrintfFind wnd_id);;
  wnd <- ds_client_first_window client_p;;
  find_window_loop steps wnd wnd_id.

(** Get next event from client event queue.  The result is the status and
    what was stored in [*ewindow] and [*event], if anything. *)
Definition ds_client_get_event (client_p : ptr) : DM (Z * option (ptr * kbd_event_t)) :=
  c <- load_client client_p;;
  let link := list_first (events c) in
  if is_null link then ret (ENOENT env, None)
  else
    wevent <- load_wevent link;;
    free_wevent link;;
    ret (EOK, Some (window wevent, event wevent)).


End Client.

(** The first window of [ws] whose identifier is [wnd_id], or [NULL]. *)
Definition first_with_id (st : state) (wnd_id : Z) (ws : list ptr) : ptr :=
  match List.find (fun w => match wnds st !! w with
                            | Some v => Z.eqb (id v) wnd_id
                            | None => false
                            end) ws with
  | Some w => w
  | None => NULL
  end.

(** A client's window list as the list operations keep it: no window twice,
    no null entry, every window live and pointing back to the client. *)
Definition client_windows_ok (st : state) (client_p : ptr) (c : ds_client_t) : Prop :=
  clients st !! client_p = Some c /\
  NoDup (windows c) /\
  ~ In NULL (windows c) /\
  (forall w, In w (windows c) -> exists v, wnds st !! w = Some v /\ client v = client_p).

(** The identifier stored in a window, when it is live. *)
Definition wnd_id_of (st : state) (w : ptr) : option Z := id <$> wnds st !! w.

(** Every window of the client got its identifier from the display's
    counter: the identifiers are below the counter and pairwise distinct. *)
Definition ids_ok (env : environment) (st : state) (c : ds_client_t)
    (d : ds_display_t) : Prop :=
  displays st !! display c = Some d /\
  0 <= next_wnd_id d < wnd_id_modulus env /\
  (forall w v, In w (windows c) -> wnds st !! w = Some v -> 0 <= id v < next_wnd_id d) /\
  NoDup (map (wnd_id_of st) (windows c)).

Definition is_printf (e : call) : bool :=
  match e with EvPrintfFind _ | EvPrintfWnd _ _ => true | _ => false end.

(** The state with its trace replaced. *)
Definition with_trace (t : list call) (st : state) : state :=
  mk_state (wnds st) (clients st) (displays st) (wevents st) (avail st) t.

Definition sample_env : environment := mk_environment (-2) (-1) (2 ^ 64).

(** Client 50 of display 60 with windows 1 and 2 (identifiers 7 and 8);
    window 3 is not yet added. *)
Definition sample_state : state :=
  {| wnds := <[1%N := mk_window 50%N 7]> (<[2%N := mk_window 50%N 8]>
               (<[3%N := mk_window NULL 0]> ∅));
     clients := <[50%N := mk_client 60%N [1%N; 2%N] [] 90%N 91%N]> ∅;
     displays := <[60%N := mk_display 9]> ∅;
     wevents := ∅;
     avail := 2;
     trace := [] |}.


End Display.

(** * Thread contexts on ia64 ([libc/arch/ia64/include/psthread.h])

    The header declares the saved register context of a pseudo thread and the
    macro [context_set] that prepares a context to start running a function
    on a fresh stack.  On ia64 one stack area serves two stacks: the memory
    stack grows down from [sp], the register stack grows up from [bsp]. *)

Module Ia64.

(** Registers are 64 bits wide. *)
Definition wrap64 (x : Z) : Z := x mod 2 ^ 64.

(** [context_t]: only the registers that must be preserved across function
    calls. *)
Record context_t := mk_context {
  ar_pfs : Z;
  ar_unat_caller : Z;
  ar_unat_callee : Z;
  ar_rsc : Z;
  bsp : Z;
  ar_rnat : Z;
  ar_lc : Z;
  r1 : Z;
  r4 : Z;
  r5 : Z;
  r6 : Z;
  r7 : Z;
  sp : Z;
  tp : Z;
  pc : Z;
  b1 : Z;
  b2 : Z;
  b3 : Z;
  b4 : Z;
  b5 : Z;
  pr : Z
}.

Definition PFM_MASK : Z := Z.lnot 0x3fffffffff.

Definition PSTHREAD_INITIAL_STACK_PAGES_NO : Z := 2.

(** Stack is divided into two equal parts (for memory stack and register
    stack). *)
Definition PSTHREAD_INITIAL_STACK_DIVISION : Z := 2.

Section ContextSet.

(** [STACK_ITEM_SIZE] and [STACK_ALIGNMENT] of [libarch/stack.h] and the
    macro [ALIGN_UP] of [align.h], all outside the sources. *)
Variable STACK_ITEM_SIZE : Z.
Variable STACK_ALIGNMENT : Z.
Variable ALIGN_UP : Z -> Z -> Z.

Definition SP_DELTA : Z := 0 + ALIGN_UP STACK_ITEM_SIZE STACK_ALIGNMENT.

(** [context_set(c, _pc, stack, size, tls)] *)
Definition context_set (c : context_t) (_pc stack size tls : Z) : context_t :=
  {| pc := wrap64 _pc;
     bsp := wrap64 (stack + size / PSTHREAD_INITIAL_STACK_DIVISION);
     ar_pfs := Z.land (ar_pfs c) (wrap64 PFM_MASK);
     sp := wrap64 (stack
                   + ALIGN_UP (size / PSTHREAD_INITIAL_STACK_DIVISION) STACK_ALIGNMENT
                   - SP_DELTA);
     tp := wrap64 tls;
     ar_unat_caller := ar_unat_caller c;
     ar_unat_callee := ar_unat_callee c;
     ar_rsc := ar_rsc c;
     ar_rnat := ar_rnat c;
     ar_lc := ar_lc c;
     r1 := r1 c; r4 := r4 c; r5 := r5 c; r6 := r6 c; r7 := r7 c;
     b1 := b1 c; b2 := b2 c; b3 := b3 c; b4 := b4 c; b5 := b5 c;
     pr := pr c |}.


End ContextSet.

(** Rounding up to a multiple, by division. *)
Definition align_up_div (s a : Z) : Z := a * ((s + a - 1) / a).


End Ia64.

(** * Properties *)

(** ** Sanity checks on the scenarios of the specification *)

(** Scenario A: count 1, create (2), abort, count back to 1, batch released. *)
Example scenario_A :
  exists b w1 w2,
    usb_transfer_batch_create sample_env 10%N (sample_world 4) = Done b w1 /\
    refcount 10%N w1 = Some 2%nat /\
    usb_transfer_batch_abort sample_env b w1 = Done tt w2 /\
    refcount 10%N w2 = Some 1%nat /\
    batches (w_heap w2) !! b = None.
Proof. do 3 eexists. repeat apply conj; (vm_compute; reflexivity). Qed.

(** Scenario B: three batches bring the count from 1 to 4, three [finish]
    bring it back to 1. *)
Example scenario_B :
  exists bs w1 w2,
    create_batches sample_env 3 10%N (sample_world 4) = Done bs w1 /\
    refcount 10%N w1 = Some 4%nat /\
    complete_all sample_env (map (pair ByFinish) bs) w1 = Done tt w2 /\
    refcount 10%N w2 = Some 1%nat.
Proof. do 3 eexists. repeat apply conj; (vm_compute; reflexivity). Qed.

(** The same on the bus whose backend overrides allocation and destruction. *)
Example scenario_B_override :
  exists bs w1 w2,
    create_batches sample_env 3 20%N (sample_world 0) = Done bs w1 /\
    refcount 20%N w1 = Some 4%nat /\
    complete_all sample_env (map (pair ByFinish) bs) w1 = Done tt w2 /\
    refcount 20%N w2 = Some 1%nat.
Proof. do 3 eexists. repeat apply conj; (vm_compute; reflexivity). Qed.

(** ** Stepping through the monad *)

Lemma is_null_false (p : ptr) : p <> NULL -> is_null p = false.
Proof. intros H. unfold is_null. now apply N.eqb_neq. Qed.

Lemma is_null_true (p : ptr) : is_null p = true -> p = NULL.
Proof. unfold is_null. apply N.eqb_eq. Qed.

Lemma bind_done {A B} (m : M A) (k : A -> M B) (w w' : world) (a : A) :
  m w = Done a w' -> bind m k w = k a w'.
Proof. intros H. unfold bind. now rewrite H. Qed.

Lemma bind_fault {A B} (m : M A) (k : A -> M B) (w w' : world) :
  m w = Fault w' -> bind m k w = Fault w'.
Proof. intros H. unfold bind. now rewrite H. Qed.

Lemma assert_true (w : world) : assert_ true w = Done tt w.
Proof. reflexivity. Qed.

Lemma load_batch_live (batch : ptr) (b : usb_transfer_batch_t) (w : world) :
  batches (w_heap w) !! batch = Some b -> load_batch batch w = Done b w.
Proof. intros H. unfold load_batch. now rewrite H. Qed.

Lemma load_endpoint_live (e : ptr) (x : endpoint_t) (w : world) :
  endpoints (w_heap w) !! e = Some x -> load_endpoint e w = Done x w.
Proof. intros H. unfold load_endpoint. now rewrite H. Qed.

Lemma load_bus_live (p : ptr) (v : bus_t) (w : world) :
  buses (w_heap w) !! p = Some v -> load_bus p w = Done v w.
Proof. intros H. unfold load_bus. now rewrite H. Qed.

Lemma endpoint_get_bus_live (e : ptr) (x : endpoint_t) (w : world) :
  endpoints (w_heap w) !! e = Some x -> endpoint_get_bus e w = Done (bus x) w.
Proof.
  intros H. unfold endpoint_get_bus.
  now rewrite (bind_done _ _ _ _ _ (load_endpoint_live _ _ _ H)).
Qed.

Lemma toggle_reset_mode_eqb_spec (a b : toggle_reset_mode_t) :
  toggle_reset_mode_eqb a b = true <-> a = b.
Proof. destruct a, b; simpl; split; congruence. Qed.

(** Rewrites the first monadic step of the goal with a fact about it. *)
Ltac step_with H := rewrite (bind_done _ _ _ _ _ H).

(** ** Toggle reset *)

(** C4 (as the code has it): on a live batch, [reset_toggle] returns success
    without any call and without touching the world whenever the outcome
    carries an error or the mode is [RESET_NONE]; only for a successful
    outcome with mode [RESET_EP] or [RESET_ALL] it logs and calls the bus's
    [reset_toggle] exactly once, with the bus of the batch's endpoint, the
    batch's device target and its mode, and returns that call's status. *)
Theorem reset_toggle_guard (env : environment) (batch : ptr)
    (b : usb_transfer_batch_t) (w : world) :
  batch <> NULL ->
  batches (w_heap w) !! batch = Some b ->
  (error b <> EOK \/ toggle_reset_mode b = RESET_NONE ->
     usb_transfer_batch_reset_toggle env batch w = Done EOK w) /\
  (error b = EOK -> toggle_reset_mode b <> RESET_NONE ->
     forall x, endpoints (w_heap w) !! ep b = Some x ->
       let r := bus_reset_toggle env (bus x) (target b) (toggle_reset_mode b) (w_heap w) in
       usb_transfer_batch_reset_toggle env batch w =
         Done (fst r)
           (after (snd r)
              [EvLogDebug2 (MsgResets batch (toggle_reset_mode_eqb (toggle_reset_mode b) RESET_ALL));
               EvResetToggle (bus x) (target b) (toggle_reset_mode b)] w)).
Proof.
  intros Hnn Hb. unfold usb_transfer_batch_reset_toggle.
  rewrite (is_null_false _ Hnn). simpl negb.
  step_with (assert_true w). step_with (load_batch_live _ _ _ Hb).
  split.
  - intros [He | Hm].
    + apply Z.eqb_neq in He. now rewrite He.
    + rewrite Hm. simpl. now rewrite orb_true_r.
  - intros He Hm x Hx. cbv zeta.
    apply Z.eqb_eq in He. rewrite He. simpl.
    destruct (toggle_reset_mode_eqb (toggle_reset_mode b) RESET_NONE) eqn:Em.
    { apply toggle_reset_mode_eqb_spec in Em. contradiction. }
    unfold usb_log_debug2, emit. unfold bind at 1.
    erewrite bind_done; [| apply endpoint_get_bus_live; simpl; exact Hx].
    unfold call, after. simpl.
    destruct (bus_reset_toggle env (bus x) (target b) (toggle_reset_mode b) (w_heap w)) as [s h].
    simpl. now rewrite <- app_assoc.
Qed.

Lemma reset_toggle_guard_witness :
  usb_transfer_batch_reset_toggle sample_env 1%N
    (world_with_batch (sample_batch (-5) RESET_ALL 0 NULL)) =
    Done EOK (world_with_batch (sample_batch (-5) RESET_ALL 0 NULL)) /\
  usb_transfer_batch_reset_toggle sample_env 1%N
    (world_with_batch (sample_batch EOK RESET_ALL 0 NULL)) =
    Done EOK (after (w_heap (world_with_batch (sample_batch EOK RESET_ALL 0 NULL)))
                [EvLogDebug2 (MsgResets 1%N true);
                 EvResetToggle 100%N (mk_target 3 1) RESET_ALL]
                (world_with_batch (sample_batch EOK RESET_ALL 0 NULL))).
Proof.
  split.
  - apply (reset_toggle_guard sample_env 1%N (sample_batch (-5) RESET_ALL 0 NULL)
             (world_with_batch (sample_batch (-5) RESET_ALL 0 NULL))).
    + discriminate.
    + reflexivity.
    + left. discriminate.
  - apply (reset_toggle_guard sample_env 1%N (sample_batch EOK RESET_ALL 0 NULL)
             (world_with_batch (sample_batch EOK RESET_ALL 0 NULL))
             ltac:(discriminate) eq_refl) with (x := mk_endpoint 100%N 2).
    + reflexivity.
    + discriminate.
    + reflexivity.
Defined.

(** C4 (as the specification words it) fails: a batch whose outcome carries
    an error and whose mode is [RESET_ALL] is not in the no-op case of the
    claim, which therefore promises a call of the bus's [reset_toggle]; the
    code returns success and makes no call at all. *)
Lemma reset_toggle_skipped_after_error :
  let b := sample_batch (-5) RESET_ALL 0 NULL in
  let w := world_with_batch b in
  ~ (error b = EOK /\ toggle_reset_mode b = RESET_NONE) /\
  usb_transfer_batch_reset_toggle sample_env 1%N w = Done EOK w /\
  select is_reset_toggle
    (w_trace (world_of (usb_transfer_batch_reset_toggle sample_env 1%N w))) = [].
Proof.
  cbv zeta. split; [| split].
  - intros [He _]. discriminate He.
  - vm_compute. reflexivity.
  - vm_compute. reflexivity.
Qed.

(** ** Destruction *)

(** Running [destroy] on a live batch whose endpoint is live and referenced:
    one [del_ref], then the memory release chosen by the bus. *)
Lemma destroy_runs (env : environment) (batch : ptr) (b : usb_transfer_batch_t)
    (x : endpoint_t) (v : bus_t) (n : nat) (w : world) :
  batch <> NULL ->
  batches (w_heap w) !! batch = Some b ->
  ep b <> NULL ->
  endpoints (w_heap w) !! ep b = Some x ->
  refcnt x = S n ->
  buses (w_heap w) !! bus x = Some v ->
  let h1 := set_endpoints (<[ep b := mk_endpoint (bus x) n]> (endpoints (w_heap w))) (w_heap w) in
  let down := match n with O => [EvEndpointTeardown (ep b)] | S _ => [] end in
  usb_transfer_batch_destroy env batch w =
    match BUS_OPS_LOOKUP (ops v) batch_destroy with
    | Some o =>
        Done tt (after (snd (hc_batch_destroy env (batch_destroy o) batch h1))
                   ([EvDelRef (ep b)] ++ down ++
                    [EvLogDebug2 (MsgDestroying batch); EvBatchDestroy (batch_destroy o) batch]) w)
    | None =>
        Done tt (after (set_mem_avail (S (mem_avail h1)) (set_batches (delete batch (batches h1)) h1))
                   ([EvDelRef (ep b)] ++ down ++
                    [EvLogDebug2 (MsgDisposing batch); EvFree batch]) w)
    end.
Proof.
  intros Hnn Hb Hep Hx Hn Hv. cbv zeta.
  unfold usb_transfer_batch_destroy.
  rewrite (is_null_false _ Hnn). simpl negb.
  step_with (assert_true w). step_with (load_batch_live _ _ _ Hb).
  rewrite (is_null_false _ Hep). simpl negb.
  step_with (assert_true w). step_with (endpoint_get_bus_live _ _ _ Hx).
  step_with (load_bus_live _ _ _ Hv).
  unfold endpoint_del_ref, bind, emit, load_endpoint, usb_log_debug2, emit, ret, call,
    free_batch, after, update_heap, with_heap.
  simpl. rewrite Hx, Hn.
  destruct (BUS_OPS_LOOKUP (ops v) batch_destroy) as [o |]; destruct n; simpl.
  - destruct (hc_batch_destroy env (batch_destroy o) batch _) as [[] h]. simpl.
    now rewrite <- !app_assoc.
  - destruct (hc_batch_destroy env (batch_destroy o) batch _) as [[] h]. simpl.
    now rewrite <- !app_assoc.
  - rewrite Hb. now rewrite <- !app_assoc.
  - rewrite Hb. now rewrite <- !app_assoc.
Qed.

(** *** Computations that leave a class of events alone *)

Section Quiet.

Variable p : event -> bool.

Lemma select_app (t1 t2 : list event) : select p (t1 ++ t2) = select p t1 ++ select p t2.
Proof. apply List.filter_app. Qed.

Lemma quiet_ret {A} (a : A) : quiet p (ret a).
Proof. intros w. reflexivity. Qed.

Lemma quiet_fault {A} : quiet p (@fault A).
Proof. intros w. reflexivity. Qed.

Lemma quiet_bind {A B} (m : M A) (k : A -> M B) :
  quiet p m -> (forall a, quiet p (k a)) -> quiet p (bind m k).
Proof.
  intros Hm Hk w. unfold bind. specialize (Hm w).
  destruct (m w) as [a w' | w']; simpl in *.
  - now rewrite Hk.
  - exact Hm.
Qed.

Lemma quiet_assert (c : bool) : quiet p (assert_ c).
Proof. destruct c; [apply quiet_ret | apply quiet_fault]. Qed.

Lemma quiet_emit (e : event) : p e = false -> quiet p (emit e).
Proof.
  intros He w. unfold emit. simpl. rewrite select_app. simpl. rewrite He.
  apply app_nil_r.
Qed.

Lemma quiet_call {A} (e : event) (f : heap -> A * heap) : p e = false -> quiet p (call e f).
Proof.
  intros He w. unfold call. destruct (f (w_heap w)) as [a h]. simpl.
  rewrite select_app. simpl. rewrite He. apply app_nil_r.
Qed.

Lemma quiet_update_heap (f : heap -> heap) : quiet p (update_heap f).
Proof. intros w. reflexivity. Qed.

Lemma quiet_load_batch (batch : ptr) : quiet p (load_batch batch).
Proof. intros w. unfold load_batch. now destruct (_ !! _). Qed.

Lemma quiet_store_batch (batch : ptr) (b : usb_transfer_batch_t) : quiet p (store_batch batch b).
Proof. intros w. unfold store_batch. now destruct (_ !! _). Qed.

Lemma quiet_load_endpoint (e : ptr) : quiet p (load_endpoint e).
Proof. intros w. unfold load_endpoint. now destruct (_ !! _). Qed.

Lemma quiet_load_bus (b : ptr) : quiet p (load_bus b).
Proof. intros w. unfold load_bus. now destruct (_ !! _). Qed.

Lemma quiet_free_batch (batch : ptr) : p (EvFree batch) = false -> quiet p (free_batch batch).
Proof.
  intros He w. unfold free_batch. destruct (_ !! _); simpl;
    rewrite select_app; simpl; rewrite He; apply app_nil_r.
Qed.

End Quiet.

Create HintDb quiet.
#[local] Hint Resolve quiet_ret quiet_fault quiet_assert quiet_update_heap quiet_load_batch
  quiet_store_batch quiet_load_endpoint quiet_load_bus : quiet.

(** Decomposes a quietness goal along the structure of the code. *)
Ltac quiet_steps :=
  repeat first
    [ apply quiet_bind; [| intros ?]
    | apply quiet_emit; reflexivity
    | apply quiet_call; reflexivity
    | apply quiet_free_batch; reflexivity
    | solve [auto with quiet]
    | match goal with
      | |- quiet _ (match ?c with _ => _ end) => destruct c
      end ].

(** [destroy] never invokes a completion callback. *)
Lemma destroy_no_callback (env : environment) (batch : ptr) :
  quiet is_on_complete (usb_transfer_batch_destroy env batch).
Proof.
  unfold usb_transfer_batch_destroy, endpoint_get_bus, endpoint_del_ref,
    usb_log_debug2.
  quiet_steps.
Qed.

(** *** Computations whose course does not depend on the trace so far *)

Lemma prepend_nil {A} (o : outcome A) : prepend [] o = o.
Proof. destruct o as [a [h t] | [h t]]; reflexivity. Qed.

Lemma prepend_prepend {A} (t1 t2 : list event) (o : outcome A) :
  prepend t1 (prepend t2 o) = prepend (t1 ++ t2) o.
Proof. destruct o as [a w | w]; simpl; now rewrite app_assoc. Qed.

Lemma framed_ret {A} (a : A) : framed (ret a).
Proof. intros h t. unfold ret. simpl. now rewrite app_nil_r. Qed.

Lemma framed_fault {A} : framed (@fault A).
Proof. intros h t. unfold fault. simpl. now rewrite app_nil_r. Qed.

Lemma framed_bind {A B} (m : M A) (k : A -> M B) :
  framed m -> (forall a, framed (k a)) -> framed (bind m k).
Proof.
  intros Hm Hk h t. unfold bind. rewrite (Hm h t).
  destruct (m (mk_world h [])) as [a [h' t'] | [h' t']]; simpl.
  - rewrite (Hk a h' (t ++ t')), (Hk a h' t'). now rewrite prepend_prepend.
  - reflexivity.
Qed.

Lemma framed_assert (c : bool) : framed (assert_ c).
Proof. destruct c; [apply framed_ret | apply framed_fault]. Qed.

Lemma framed_emit (e : event) : framed (emit e).
Proof. intros h t. reflexivity. Qed.

Lemma framed_call {A} (e : event) (f : heap -> A * heap) : framed (call e f).
Proof. intros h t. unfold call. simpl. now destruct (f h). Qed.

Lemma framed_update_heap (f : heap -> heap) : framed (update_heap f).
Proof. intros h t. unfold update_heap, with_heap. simpl. now rewrite app_nil_r. Qed.

Lemma framed_load_batch (batch : ptr) : framed (load_batch batch).
Proof.
  intros h t. unfold load_batch. simpl.
  destruct (_ !! _); simpl; now rewrite app_nil_r.
Qed.

Lemma framed_load_endpoint (e : ptr) : framed (load_endpoint e).
Proof.
  intros h t. unfold load_endpoint. simpl.
  destruct (_ !! _); simpl; now rewrite app_nil_r.
Qed.

Lemma framed_load_bus (b : ptr) : framed (load_bus b).
Proof.
  intros h t. unfold load_bus. simpl.
  destruct (_ !! _); simpl; now rewrite app_nil_r.
Qed.

Lemma framed_free_batch (batch : ptr) : framed (free_batch batch).
Proof. intros h t. unfold free_batch. simpl. now destruct (_ !! _). Qed.

Create HintDb framed.
#[local] Hint Resolve framed_ret framed_fault framed_assert framed_emit framed_call
  framed_update_heap framed_load_batch framed_load_endpoint framed_load_bus
  framed_free_batch : framed.

Ltac framed_steps :=
  repeat first
    [ apply framed_bind; [| intros ?]
    | solve [auto with framed]
    | match goal with
      | |- framed (match ?c with _ => _ end) => destruct c
      end ].

Lemma destroy_framed (env : environment) (batch : ptr) :
  framed (usb_transfer_batch_destroy env batch).
Proof.
  unfold usb_transfer_batch_destroy, endpoint_get_bus, endpoint_del_ref,
    usb_log_debug2.
  framed_steps.
Qed.

(** ** Completion *)

(** [finish] on a batch with a registered callback: log, one call of the
    callback, a warning when its status is not zero, then [destroy]. *)
Lemma finish_with_callback (env : environment) (batch : ptr)
    (b : usb_transfer_batch_t) (w : world) :
  batch <> NULL ->
  batches (w_heap w) !! batch = Some b ->
  ep b <> NULL ->
  on_complete b <> NULL ->
  let r := on_complete_fn env (on_complete b) (on_complete_data b) (error b)
             (transfered_size b) (w_heap w) in
  usb_transfer_batch_finish env batch w =
  usb_transfer_batch_destroy env batch (after (snd r) (finish_events batch b (fst r)) w).
Proof.
  intros Hnn Hb Hep Hcb. cbv zeta. unfold usb_transfer_batch_finish.
  rewrite (is_null_false _ Hnn). simpl negb.
  step_with (assert_true w). step_with (load_batch_live _ _ _ Hb).
  rewrite (is_null_false _ Hep), (is_null_false _ Hcb). simpl negb.
  step_with (assert_true w).
  unfold usb_log_debug2, usb_log_warning, emit, call, bind, ret, after, finish_events.
  simpl.
  destruct (on_complete_fn env _ _ _ _ (w_heap w)) as [st h]. simpl.
  destruct (Z.eqb st 0); simpl; now rewrite <- !app_assoc.
Qed.

(** [finish] on a batch without callback: log, then [destroy]. *)
Lemma finish_no_callback (env : environment) (batch : ptr)
    (b : usb_transfer_batch_t) (w : world) :
  batch <> NULL ->
  batches (w_heap w) !! batch = Some b ->
  ep b <> NULL ->
  on_complete b = NULL ->
  usb_transfer_batch_finish env batch w =
  usb_transfer_batch_destroy env batch
    (after (w_heap w) [EvLogDebug2 (MsgFinishing batch)] w).
Proof.
  intros Hnn Hb Hep Hcb. unfold usb_transfer_batch_finish.
  rewrite (is_null_false _ Hnn). simpl negb.
  step_with (assert_true w). step_with (load_batch_live _ _ _ Hb).
  rewrite (is_null_false _ Hep), Hcb. simpl negb.
  step_with (assert_true w).
  reflexivity.
Qed.

Lemma select_finish_events (batch : ptr) (b : usb_transfer_batch_t) (st : Z) :
  select is_on_complete (finish_events batch b st) =
  [EvOnComplete (on_complete b) (on_complete_data b) (error b) (transfered_size b)].
Proof. unfold finish_events. now destruct (Z.eqb st 0). Qed.

Lemma select_not_warning_finish_events (batch : ptr) (b : usb_transfer_batch_t) (st : Z) :
  select not_warning (finish_events batch b st) =
  [EvLogDebug2 (MsgFinishing batch);
   EvOnComplete (on_complete b) (on_complete_data b) (error b) (transfered_size b)].
Proof. unfold finish_events. now destruct (Z.eqb st 0). Qed.

Lemma same_but_warnings_prepend {A} (t1 t2 : list event) (o : outcome A) :
  select not_warning t1 = select not_warning t2 ->
  same_but_warnings (prepend t1 o) (prepend t2 o).
Proof.
  intros H. destruct o as [a w | w]; simpl; rewrite !select_app, H; auto.
Qed.

(** C1: on a batch with a registered callback, [finish] invokes that callback
    exactly once, with the batch's context, error and transferred size; it
    logs a warning when the callback's status is not zero and otherwise
    ignores the status; then it calls [destroy], once, whatever the status
    was. *)
Theorem finish_calls_back_once_then_destroys (env : environment) (batch : ptr)
    (b : usb_transfer_batch_t) (w : world) :
  batch <> NULL ->
  batches (w_heap w) !! batch = Some b ->
  ep b <> NULL ->
  on_complete b <> NULL ->
  let r := on_complete_fn env (on_complete b) (on_complete_data b) (error b)
             (transfered_size b) (w_heap w) in
  (* the callback runs once, a warning follows a non-zero status, [destroy] ends *)
  usb_transfer_batch_finish env batch w =
    usb_transfer_batch_destroy env batch (after (snd r) (finish_events batch b (fst r)) w) /\
  (* one invocation is observed, however [finish] ends *)
  select is_on_complete (w_trace (world_of (usb_transfer_batch_finish env batch w))) =
    select is_on_complete (w_trace w) ++
    [EvOnComplete (on_complete b) (on_complete_data b) (error b) (transfered_size b)] /\
  (* had the callback returned any other status, only warnings would differ *)
  (forall s, same_but_warnings (usb_transfer_batch_finish (with_status s env) batch w)
                               (usb_transfer_batch_finish env batch w)).
Proof.
  intros Hnn Hb Hep Hcb r. split; [| split].
  - now apply finish_with_callback.
  - rewrite (finish_with_callback env batch b w Hnn Hb Hep Hcb).
    rewrite destroy_no_callback. unfold after. simpl.
    now rewrite select_app, select_finish_events.
  - intros s.
    rewrite (finish_with_callback env batch b w Hnn Hb Hep Hcb).
    rewrite (finish_with_callback (with_status s env) batch b w Hnn Hb Hep Hcb).
    change (usb_transfer_batch_destroy (with_status s env) batch)
      with (usb_transfer_batch_destroy env batch).
    unfold after. simpl. fold r.
    rewrite (destroy_framed env batch (snd r) (w_trace w ++ finish_events batch b s)).
    rewrite (destroy_framed env batch (snd r) (w_trace w ++ finish_events batch b (fst r))).
    apply same_but_warnings_prepend.
    now rewrite !select_app, !select_not_warning_finish_events.
Qed.

Lemma finish_calls_back_once_then_destroys_witness :
  let b := sample_batch (-5) RESET_NONE 12 7%N in
  let w := world_with_batch b in
  select is_on_complete (w_trace (world_of (usb_transfer_batch_finish sample_env 1%N w))) =
    select is_on_complete (w_trace w) ++ [EvOnComplete 7%N 900%N (-5) 12%N].
Proof.
  cbv zeta.
  apply (finish_calls_back_once_then_destroys sample_env 1%N
           (sample_batch (-5) RESET_NONE 12 7%N)
           (world_with_batch (sample_batch (-5) RESET_NONE 12 7%N))).
  - discriminate.
  - reflexivity.
  - discriminate.
  - discriminate.
Defined.

(** C9: on a batch with no callback registered, [finish] invokes no callback
    and calls [destroy] once; with the batch's endpoint live and referenced,
    the call returns, exactly one [del_ref] has been issued on that endpoint,
    and on a bus without destruction override the batch is gone from the
    store and the endpoint's count is one lower. *)
Theorem finish_without_callback_destroys (env : environment) (batch : ptr)
    (b : usb_transfer_batch_t) (x : endpoint_t) (v : bus_t) (n : nat) (w : world) :
  batch <> NULL ->
  batches (w_heap w) !! batch = Some b ->
  ep b <> NULL ->
  on_complete b = NULL ->
  endpoints (w_heap w) !! ep b = Some x ->
  refcnt x = S n ->
  buses (w_heap w) !! bus x = Some v ->
  usb_transfer_batch_finish env batch w =
    usb_transfer_batch_destroy env batch
      (after (w_heap w) [EvLogDebug2 (MsgFinishing batch)] w) /\
  exists w',
    usb_transfer_batch_finish env batch w = Done tt w' /\
    select is_on_complete (w_trace w') = select is_on_complete (w_trace w) /\
    select is_del_ref (w_trace w') = select is_del_ref (w_trace w) ++ [EvDelRef (ep b)] /\
    (BUS_OPS_LOOKUP (ops v) batch_destroy = None ->
       batches (w_heap w') !! batch = None /\ refcount (ep b) w' = Some n).
Proof.
  intros Hnn Hb Hep Hcb Hx Hn Hv.
  pose proof (finish_no_callback env batch b w Hnn Hb Hep Hcb) as Hfin.
  split; [exact Hfin |].
  rewrite Hfin.
  rewrite (destroy_runs env batch b x v n
             (after (w_heap w) [EvLogDebug2 (MsgFinishing batch)] w) Hnn Hb Hep Hx Hn Hv).
  destruct (BUS_OPS_LOOKUP (ops v) batch_destroy) as [o |]; eexists; (split; [reflexivity |]).
  - unfold after. simpl. rewrite !select_app. simpl.
    destruct n; simpl; rewrite ?app_nil_r; (split; [reflexivity | split; [reflexivity |]]);
      intros H; discriminate H.
  - unfold after, refcount. simpl. rewrite !select_app. simpl.
    destruct n; simpl; rewrite ?app_nil_r; (split; [reflexivity | split; [reflexivity |]]);
      intros _; rewrite lookup_delete_eq, lookup_insert_eq; split; reflexivity.
Qed.

Lemma finish_without_callback_destroys_witness :
  exists w',
    usb_transfer_batch_finish sample_env 1%N
      (world_with_batch (sample_batch EOK RESET_NONE 12 NULL)) = Done tt w' /\
    select is_on_complete (w_trace w') = [] /\
    select is_del_ref (w_trace w') = [EvDelRef 10%N] /\
    (BUS_OPS_LOOKUP (ops generic_bus) batch_destroy = None ->
       batches (w_heap w') !! 1%N = None /\ refcount 10%N w' = Some 1%nat).
Proof.
  apply (finish_without_callback_destroys sample_env 1%N
           (sample_batch EOK RESET_NONE 12 NULL) (mk_endpoint 100%N 2) generic_bus 1
           (world_with_batch (sample_batch EOK RESET_NONE 12 NULL)));
    first [discriminate | reflexivity].
Defined.

(** C8: [destroy] on a live batch of a live, referenced endpoint issues one
    [del_ref] on the batch's endpoint, no more, and after it releases the
    memory: through the bus's [batch_destroy] override when there is one,
    else by freeing the batch. *)
Theorem destroy_releases_one_reference (env : environment) (batch : ptr)
    (b : usb_transfer_batch_t) (x : endpoint_t) (v : bus_t) (n : nat) (w : world) :
  batch <> NULL ->
  batches (w_heap w) !! batch = Some b ->
  ep b <> NULL ->
  endpoints (w_heap w) !! ep b = Some x ->
  refcnt x = S n ->
  buses (w_heap w) !! bus x = Some v ->
  let h1 := set_endpoints (<[ep b := mk_endpoint (bus x) n]> (endpoints (w_heap w))) (w_heap w) in
  let down := match n with O => [EvEndpointTeardown (ep b)] | S _ => [] end in
  exists w',
    usb_transfer_batch_destroy env batch w = Done tt w' /\
    select is_del_ref (w_trace w') = select is_del_ref (w_trace w) ++ [EvDelRef (ep b)] /\
    match BUS_OPS_LOOKUP (ops v) batch_destroy with
    | Some o =>
        w_trace w' = w_trace w ++ [EvDelRef (ep b)] ++ down ++
                     [EvLogDebug2 (MsgDestroying batch); EvBatchDestroy (batch_destroy o) batch] /\
        w_heap w' = snd (hc_batch_destroy env (batch_destroy o) batch h1)
    | None =>
        w_trace w' = w_trace w ++ [EvDelRef (ep b)] ++ down ++
                     [EvLogDebug2 (MsgDisposing batch); EvFree batch] /\
        batches (w_heap w') = delete batch (batches (w_heap w)) /\
        endpoints (w_heap w') = <[ep b := mk_endpoint (bus x) n]> (endpoints (w_heap w)) /\
        buses (w_heap w') = buses (w_heap w)
    end.
Proof.
  intros Hnn Hb Hep Hx Hn Hv h1 down.
  rewrite (destroy_runs env batch b x v n w Hnn Hb Hep Hx Hn Hv). fold h1 down.
  destruct (BUS_OPS_LOOKUP (ops v) batch_destroy) as [o |]; eexists; (split; [reflexivity |]);
    unfold after; simpl; rewrite !select_app; simpl;
    subst down; destruct n; simpl; rewrite ?app_nil_r; repeat split; reflexivity.
Qed.

Lemma destroy_releases_one_reference_witness :
  exists w',
    usb_transfer_batch_destroy sample_env 1%N
      (world_with_batch (sample_batch EOK RESET_NONE 12 NULL)) = Done tt w' /\
    select is_del_ref (w_trace w') = [EvDelRef 10%N] /\
    w_trace w' = [EvDelRef 10%N; EvLogDebug2 (MsgDisposing 1%N); EvFree 1%N] /\
    batches (w_heap w') = delete 1%N (<[1%N := sample_batch EOK RESET_NONE 12 NULL]> ∅) /\
    endpoints (w_heap w') =
      <[10%N := mk_endpoint 100%N 1]>
        (<[10%N := mk_endpoint 100%N 2]> (endpoints (sample_heap 4))) /\
    buses (w_heap w') = buses (sample_heap 4).
Proof.
  apply (destroy_releases_one_reference sample_env 1%N
           (sample_batch EOK RESET_NONE 12 NULL) (mk_endpoint 100%N 2) generic_bus 1
           (world_with_batch (sample_batch EOK RESET_NONE 12 NULL)));
    first [discriminate | reflexivity].
Defined.

(** ** Abort *)

(** [abort] on a live, bound batch: one store to the error field, then
    [finish]. *)
Lemma abort_steps (env : environment) (batch : ptr) (b : usb_transfer_batch_t) (w : world) :
  batch <> NULL ->
  batches (w_heap w) !! batch = Some b ->
  ep b <> NULL ->
  usb_transfer_batch_abort env batch w =
  usb_transfer_batch_finish env batch
    (with_heap (fun h => set_batches (<[batch := set_error (EAGAIN env) b]> (batches h)) h) w).
Proof.
  intros Hnn Hb Hep. unfold usb_transfer_batch_abort.
  rewrite (is_null_false _ Hnn). simpl negb.
  step_with (assert_true w). step_with (load_batch_live _ _ _ Hb).
  rewrite (is_null_false _ Hep). simpl negb.
  step_with (assert_true w).
  unfold store_batch, bind. now rewrite Hb.
Qed.

(** C10: what [abort] itself does to the world before it hands over to
    [finish] is one write, to the error field of the batch: the batch's
    other fields (transferred size, callback, context, endpoint and the
    rest), every other batch, the endpoints, the buses, the allocator and the
    trace are as before. *)
Theorem abort_writes_only_the_error (env : environment) (batch : ptr)
    (b : usb_transfer_batch_t) (w : world) :
  batch <> NULL ->
  batches (w_heap w) !! batch = Some b ->
  ep b <> NULL ->
  exists w' b',
    usb_transfer_batch_abort env batch w = usb_transfer_batch_finish env batch w' /\
    batches (w_heap w') !! batch = Some b' /\
    error b' = EAGAIN env /\
    ep b' = ep b /\ dir b' = dir b /\ buffer b' = buffer b /\
    buffer_size b' = buffer_size b /\ transfered_size b' = transfered_size b /\
    toggle_reset_mode b' = toggle_reset_mode b /\ target b' = target b /\
    on_complete b' = on_complete b /\ on_complete_data b' = on_complete_data b /\
    (forall p, p <> batch -> batches (w_heap w') !! p = batches (w_heap w) !! p) /\
    endpoints (w_heap w') = endpoints (w_heap w) /\
    buses (w_heap w') = buses (w_heap w) /\
    mem_avail (w_heap w') = mem_avail (w_heap w) /\
    w_trace w' = w_trace w.
Proof.
  intros Hnn Hb Hep.
  eexists. exists (set_error (EAGAIN env) b).
  split; [apply (abort_steps env batch b w Hnn Hb Hep) |].
  simpl. split; [apply lookup_insert_eq |].
  repeat (split; [reflexivity |]).
  split; [| repeat split; reflexivity].
  intros p Hp. now apply lookup_insert_ne.
Qed.

Lemma abort_writes_only_the_error_witness :
  exists w' b',
    usb_transfer_batch_abort sample_env 1%N
      (world_with_batch (sample_batch (-5) RESET_EP 12 7%N)) =
      usb_transfer_batch_finish sample_env 1%N w' /\
    batches (w_heap w') !! 1%N = Some b' /\
    error b' = -11002 /\
    ep b' = 10%N /\ dir b' = USB_DIRECTION_IN /\ buffer b' = 500%N /\
    buffer_size b' = 64%N /\ transfered_size b' = 12%N /\
    toggle_reset_mode b' = RESET_EP /\ target b' = mk_target 3 1 /\
    on_complete b' = 7%N /\ on_complete_data b' = 900%N /\
    (forall p, p <> 1%N -> batches (w_heap w') !! p =
       batches (w_heap (world_with_batch (sample_batch (-5) RESET_EP 12 7%N))) !! p) /\
    endpoints (w_heap w') =
      endpoints (w_heap (world_with_batch (sample_batch (-5) RESET_EP 12 7%N))) /\
    buses (w_heap w') = buses (w_heap (world_with_batch (sample_batch (-5) RESET_EP 12 7%N))) /\
    mem_avail (w_heap w') = 4%nat /\
    w_trace w' = [].
Proof.
  apply (abort_writes_only_the_error sample_env 1%N (sample_batch (-5) RESET_EP 12 7%N)
           (world_with_batch (sample_batch (-5) RESET_EP 12 7%N)));
    first [discriminate | reflexivity].
Defined.

(** C3 (as the code has it): whatever error the batch recorded before,
    [abort] overwrites it with [EAGAIN] and calls [finish]; the transferred
    size is not reset: a registered callback is invoked once and observes the
    context, [EAGAIN] and the transferred size the batch held when [abort]
    was called (zero exactly when the batch held zero). *)
Theorem abort_reports_cancelled_with_stored_size (env : environment) (batch : ptr)
    (b : usb_transfer_batch_t) (w : world) :
  batch <> NULL ->
  batches (w_heap w) !! batch = Some b ->
  ep b <> NULL ->
  on_complete b <> NULL ->
  let w1 := with_heap (fun h => set_batches (<[batch := set_error (EAGAIN env) b]> (batches h)) h) w in
  usb_transfer_batch_abort env batch w = usb_transfer_batch_finish env batch w1 /\
  (error <$> batches (w_heap w1) !! batch) = Some (EAGAIN env) /\
  select is_on_complete (w_trace (world_of (usb_transfer_batch_abort env batch w))) =
    select is_on_complete (w_trace w) ++
    [EvOnComplete (on_complete b) (on_complete_data b) (EAGAIN env) (transfered_size b)].
Proof.
  intros Hnn Hb Hep Hcb w1.
  pose proof (abort_steps env batch b w Hnn Hb Hep) as Hab. fold w1 in Hab.
  assert (Hb1 : batches (w_heap w1) !! batch = Some (set_error (EAGAIN env) b))
    by apply lookup_insert_eq.
  split; [exact Hab | split].
  - now rewrite Hb1.
  - rewrite Hab.
    rewrite (finish_with_callback env batch (set_error (EAGAIN env) b) w1 Hnn Hb1 Hep Hcb).
    rewrite destroy_no_callback. unfold after. simpl.
    now rewrite select_app, select_finish_events.
Qed.

Lemma abort_reports_cancelled_with_stored_size_witness :
  select is_on_complete
    (w_trace (world_of (usb_transfer_batch_abort sample_env 1%N
                          (world_with_batch (sample_batch (-5) RESET_NONE 0 7%N))))) =
  [EvOnComplete 7%N 900%N (-11002) 0%N].
Proof.
  apply (abort_reports_cancelled_with_stored_size sample_env 1%N
           (sample_batch (-5) RESET_NONE 0 7%N)
           (world_with_batch (sample_batch (-5) RESET_NONE 0 7%N)));
    first [discriminate | reflexivity].
Defined.

(** C3 (as the specification words it) fails: aborting a batch that recorded
    12 transferred bytes lets the callback observe 12, not 0. *)
Lemma abort_keeps_transferred_size :
  let w := world_with_batch (sample_batch (-5) RESET_NONE 12 7%N) in
  select is_on_complete (w_trace (world_of (usb_transfer_batch_abort sample_env 1%N w))) =
    [EvOnComplete 7%N 900%N (EAGAIN sample_env) 12%N] /\
  12%N <> 0%N.
Proof. cbv zeta. split; [vm_compute; reflexivity | discriminate]. Qed.

(** ** Creation *)

Lemma fresh_block_not_null (h : heap) : fresh_block h <> NULL.
Proof.
  unfold fresh_block. intros H.
  pose proof (is_fresh ({[NULL]} ∪ dom (batches h) ∪ dom (endpoints h) ∪ dom (buses h) : gset N)) as Hf.
  rewrite H in Hf. set_solver.
Qed.

Lemma fresh_block_unused (h : heap) : batches h !! fresh_block h = None.
Proof.
  unfold fresh_block. apply not_elem_of_dom.
  pose proof (is_fresh ({[NULL]} ∪ dom (batches h) ∪ dom (endpoints h) ∪ dom (buses h) : gset N)) as Hf.
  set_solver.
Qed.

(** The generic path of [create] when the allocator has a block left. *)
Lemma create_generic_runs (env : environment) (e : ptr) (x : endpoint_t) (v : bus_t)
    (m : nat) (w : world) :
  e <> NULL ->
  endpoints (w_heap w) !! e = Some x ->
  buses (w_heap w) !! bus x = Some v ->
  BUS_OPS_LOOKUP (ops v) batch_create = None ->
  mem_avail (w_heap w) = S m ->
  usb_transfer_batch_create env e w =
    Done (fresh_block (w_heap w))
      (after (created_heap e x m (w_heap w))
         [EvCalloc (fresh_block (w_heap w)); EvAddRef e] w).
Proof.
  intros Hnn Hx Hv Hops Hm. unfold usb_transfer_batch_create.
  rewrite (is_null_false _ Hnn). simpl negb.
  step_with (assert_true w). step_with (endpoint_get_bus_live _ _ _ Hx).
  step_with (load_bus_live _ _ _ Hv). rewrite Hops.
  unfold usb_transfer_batch_init. rewrite (is_null_false _ Hnn). simpl negb.
  unfold calloc_batch, endpoint_add_ref, bind, assert_, ret, emit, load_endpoint,
    update_heap, with_heap, load_batch, store_batch, after, created_heap.
  rewrite Hm. simpl. rewrite Hx. simpl.
  rewrite lookup_insert_eq. simpl. rewrite lookup_insert_eq.
  unfold with_heap, set_endpoints, set_mem_avail, set_batches. simpl.
  rewrite insert_insert_eq. now rewrite <- app_assoc.
Qed.

(** The generic path of [create] when the allocator is exhausted: [calloc]
    returns [NULL], [init] takes the reference and then writes through the
    null pointer. *)
Lemma create_generic_exhausted (env : environment) (e : ptr) (x : endpoint_t) (v : bus_t)
    (w : world) :
  e <> NULL ->
  endpoints (w_heap w) !! e = Some x ->
  buses (w_heap w) !! bus x = Some v ->
  BUS_OPS_LOOKUP (ops v) batch_create = None ->
  mem_avail (w_heap w) = O ->
  batches (w_heap w) !! NULL = None ->
  usb_transfer_batch_create env e w =
    Fault (after (set_endpoints (<[e := mk_endpoint (bus x) (S (refcnt x))]> (endpoints (w_heap w)))
                    (w_heap w))
             [EvCalloc NULL; EvAddRef e] w).
Proof.
  intros Hnn Hx Hv Hops Hm Hnull. unfold usb_transfer_batch_create.
  rewrite (is_null_false _ Hnn). simpl negb.
  step_with (assert_true w). step_with (endpoint_get_bus_live _ _ _ Hx).
  step_with (load_bus_live _ _ _ Hv). rewrite Hops.
  unfold usb_transfer_batch_init. rewrite (is_null_false _ Hnn). simpl negb.
  unfold calloc_batch, endpoint_add_ref, bind, assert_, ret, emit, load_endpoint,
    update_heap, with_heap, load_batch, store_batch, after.
  rewrite Hm. simpl. rewrite Hx. simpl. rewrite Hnull.
  now rewrite <- app_assoc.
Qed.

(** The override path of [create]: the call of the override and nothing
    else. *)
Lemma create_override_runs (env : environment) (e : ptr) (x : endpoint_t) (v : bus_t)
    (o : bus_ops_t) (w : world) :
  e <> NULL ->
  endpoints (w_heap w) !! e = Some x ->
  buses (w_heap w) !! bus x = Some v ->
  BUS_OPS_LOOKUP (ops v) batch_create = Some o ->
  let r := hc_batch_create env (batch_create o) e (w_heap w) in
  usb_transfer_batch_create env e w =
    Done (fst r) (after (snd r) [EvBatchCreate (batch_create o) e] w).
Proof.
  intros Hnn Hx Hv Hops. cbv zeta. unfold usb_transfer_batch_create.
  rewrite (is_null_false _ Hnn). simpl negb.
  step_with (assert_true w). step_with (endpoint_get_bus_live _ _ _ Hx).
  step_with (load_bus_live _ _ _ Hv). rewrite Hops.
  unfold call, after. now destruct (hc_batch_create env _ _ _).
Qed.

(** C7: on a bus without [batch_create] override and with memory available,
    [create] returns a batch that was not live before, zero in every field
    but its endpoint, which is the endpoint given; exactly one [add_ref] was
    issued on the endpoint, whose reference count is exactly one more than
    before the call. *)
Theorem create_generic_binds_and_references (env : environment) (e : ptr)
    (x : endpoint_t) (v : bus_t) (m : nat) (w : world) :
  e <> NULL ->
  endpoints (w_heap w) !! e = Some x ->
  buses (w_heap w) !! bus x = Some v ->
  BUS_OPS_LOOKUP (ops v) batch_create = None ->
  mem_avail (w_heap w) = S m ->
  exists batch w',
    usb_transfer_batch_create env e w = Done batch w' /\
    batch <> NULL /\
    batches (w_heap w) !! batch = None /\
    batches (w_heap w') !! batch = Some (set_ep e zero_batch) /\
    (ep <$> batches (w_heap w') !! batch) = Some e /\
    select is_add_ref (w_trace w') = select is_add_ref (w_trace w) ++ [EvAddRef e] /\
    refcount e w = Some (refcnt x) /\
    refcount e w' = Some (S (refcnt x)).
Proof.
  intros Hnn Hx Hv Hops Hm.
  exists (fresh_block (w_heap w)). eexists.
  split; [apply (create_generic_runs env e x v m w Hnn Hx Hv Hops Hm) |].
  split; [apply fresh_block_not_null |].
  split; [apply fresh_block_unused |].
  unfold refcount, after, created_heap. simpl.
  rewrite !lookup_insert_eq, Hx, select_app. repeat split; reflexivity.
Qed.

Lemma create_generic_binds_and_references_witness :
  exists batch w',
    usb_transfer_batch_create sample_env 10%N (sample_world 4) = Done batch w' /\
    batch <> NULL /\
    batches (w_heap (sample_world 4)) !! batch = None /\
    batches (w_heap w') !! batch = Some (set_ep 10%N zero_batch) /\
    (ep <$> batches (w_heap w') !! batch) = Some 10%N /\
    select is_add_ref (w_trace w') = [EvAddRef 10%N] /\
    refcount 10%N (sample_world 4) = Some 1%nat /\
    refcount 10%N w' = Some 2%nat.
Proof.
  apply (create_generic_binds_and_references sample_env 10%N (mk_endpoint 100%N 1)
           generic_bus 3 (sample_world 4));
    first [discriminate | reflexivity].
Defined.

(** C5 (what the code does when allocation fails): on a bus without
    [batch_create] override and with the allocator exhausted, [create] does
    not return: [calloc] yields [NULL], [init] is called on it all the same,
    takes a reference on the endpoint and then writes through the null
    pointer.  The task stops with the endpoint's count one higher than
    before. *)
Theorem create_exhausted_leaks_reference (env : environment) (e : ptr)
    (x : endpoint_t) (v : bus_t) (w : world) :
  e <> NULL ->
  endpoints (w_heap w) !! e = Some x ->
  buses (w_heap w) !! bus x = Some v ->
  BUS_OPS_LOOKUP (ops v) batch_create = None ->
  mem_avail (w_heap w) = O ->
  batches (w_heap w) !! NULL = None ->
  exists w',
    usb_transfer_batch_create env e w = Fault w' /\
    w_trace w' = w_trace w ++ [EvCalloc NULL; EvAddRef e] /\
    refcount e w = Some (refcnt x) /\
    refcount e w' = Some (S (refcnt x)).
Proof.
  intros Hnn Hx Hv Hops Hm Hnull. eexists.
  split; [apply (create_generic_exhausted env e x v w Hnn Hx Hv Hops Hm Hnull) |].
  unfold refcount, after. simpl. rewrite lookup_insert_eq, Hx. repeat split; reflexivity.
Qed.

Lemma create_exhausted_leaks_reference_witness :
  exists w',
    usb_transfer_batch_create sample_env 10%N (sample_world 0) = Fault w' /\
    w_trace w' = [EvCalloc NULL; EvAddRef 10%N] /\
    refcount 10%N (sample_world 0) = Some 1%nat /\
    refcount 10%N w' = Some 2%nat.
Proof.
  apply (create_exhausted_leaks_reference sample_env 10%N (mk_endpoint 100%N 1)
           generic_bus (sample_world 0));
    first [discriminate | reflexivity].
Defined.

(** C6 (as the code has it): [create] looks up the bus's [batch_create]
    override first.  With an override it does nothing but call it: the
    outcome is the override's, and [create] itself issues no [add_ref].
    Without one it allocates a zeroed batch and then calls [init], and it is
    [init] that issues the one [add_ref], after the allocation. *)
Theorem create_dispatch (env : environment) (e : ptr) (x : endpoint_t) (v : bus_t)
    (w : world) :
  e <> NULL ->
  endpoints (w_heap w) !! e = Some x ->
  buses (w_heap w) !! bus x = Some v ->
  match BUS_OPS_LOOKUP (ops v) batch_create with
  | Some o =>
      let r := hc_batch_create env (batch_create o) e (w_heap w) in
      usb_transfer_batch_create env e w =
        Done (fst r) (after (snd r) [EvBatchCreate (batch_create o) e] w) /\
      select is_add_ref (w_trace (world_of (usb_transfer_batch_create env e w))) =
        select is_add_ref (w_trace w)
  | None =>
      forall m, mem_avail (w_heap w) = S m ->
        exists w',
          usb_transfer_batch_create env e w = Done (fresh_block (w_heap w)) w' /\
          w_trace w' = w_trace w ++ [EvCalloc (fresh_block (w_heap w)); EvAddRef e] /\
          refcount e w' = Some (S (refcnt x))
  end.
Proof.
  intros Hnn Hx Hv.
  destruct (BUS_OPS_LOOKUP (ops v) batch_create) as [o |] eqn:Hops.
  - cbv zeta.
    rewrite (create_override_runs env e x v o w Hnn Hx Hv Hops).
    split; [reflexivity |].
    unfold after. simpl. rewrite select_app. simpl. apply app_nil_r.
  - intros m Hm. eexists.
    split; [apply (create_generic_runs env e x v m w Hnn Hx Hv Hops Hm) |].
    unfold refcount, after, created_heap. simpl.
    rewrite lookup_insert_eq. split; reflexivity.
Qed.

Lemma create_dispatch_witness :
  usb_transfer_batch_create sample_env 20%N (sample_world 4) =
    Done (fst (embedding_batch_create 71%N 20%N (sample_heap 4)))
      (after (snd (embedding_batch_create 71%N 20%N (sample_heap 4)))
         [EvBatchCreate 71%N 20%N] (sample_world 4)) /\
  select is_add_ref
    (w_trace (world_of (usb_transfer_batch_create sample_env 20%N (sample_world 4)))) = [].
Proof.
  apply (create_dispatch sample_env 20%N (mk_endpoint 200%N 1) embedding_bus (sample_world 4));
    first [discriminate | reflexivity].
Defined.

(** C6 (as the specification words it) fails: on a bus with an allocation
    override, [create] issues no [add_ref] before (or after) delegating.
    With a backend that is out of descriptors no reference is acquired at
    all; with the embedding backend the count does rise, but through the
    override, the only call [create] makes. *)
Lemma create_override_issues_no_add_ref :
  usb_transfer_batch_create exhausted_env 20%N (sample_world 4) =
    Done NULL (after (sample_heap 4) [EvBatchCreate 71%N 20%N] (sample_world 4)) /\
  refcount 20%N (world_of (usb_transfer_batch_create exhausted_env 20%N (sample_world 4))) =
    refcount 20%N (sample_world 4) /\
  w_trace (world_of (usb_transfer_batch_create sample_env 20%N (sample_world 4))) =
    [EvBatchCreate 71%N 20%N] /\
  refcount 20%N (world_of (usb_transfer_batch_create sample_env 20%N (sample_world 4))) =
    Some 2%nat.
Proof. repeat apply conj; vm_compute; reflexivity. Qed.

(** ** Reference balance *)

Section Balance.

Variable env : environment.
Hypothesis callbacks_ok : callbacks_keep_objects env.
Hypothesis destroy_ok : destroy_override_releases env.




(** [finish] on a live batch of a live, referenced endpoint returns, having
    released the batch and one reference. *)
Lemma finish_returns (batch : ptr) (bv : usb_transfer_batch_t) (x : endpoint_t)
    (v : bus_t) (n : nat) (w : world) :
  batch <> NULL ->
  batches (w_heap w) !! batch = Some bv ->
  ep bv <> NULL ->
  endpoints (w_heap w) !! ep bv = Some x ->
  refcnt x = S n ->
  buses (w_heap w) !! bus x = Some v ->
  exists w2,
    usb_transfer_batch_finish env batch w = Done tt w2 /\
    batches (w_heap w2) = delete batch (batches (w_heap w)) /\
    endpoints (w_heap w2) = <[ep bv := mk_endpoint (bus x) n]> (endpoints (w_heap w)) /\
    buses (w_heap w2) = buses (w_heap w).
Proof using callbacks_ok destroy_ok.
  intros Hnn Hb Hep Hx Hn Hv.
  assert (Hdestroy : forall w0 : world,
    batches (w_heap w0) = batches (w_heap w) ->
    endpoints (w_heap w0) = endpoints (w_heap w) ->
    buses (w_heap w0) = buses (w_heap w) ->
    exists w2,
      usb_transfer_batch_destroy env batch w0 = Done tt w2 /\
      batches (w_heap w2) = delete batch (batches (w_heap w)) /\
      endpoints (w_heap w2) = <[ep bv := mk_endpoint (bus x) n]> (endpoints (w_heap w)) /\
      buses (w_heap w2) = buses (w_heap w)).
  { intros w0 E1 E2 E3.
    rewrite <- E1 in Hb. rewrite <- E2 in Hx. rewrite <- E3 in Hv.
    rewrite (destroy_runs env batch bv x v n w0 Hnn Hb Hep Hx Hn Hv).
    destruct (BUS_OPS_LOOKUP (ops v) batch_destroy) as [o |]; eexists; (split; [reflexivity |]).
    - unfold after. simpl.
      destruct (destroy_ok (batch_destroy o) batch
                  (set_endpoints (<[ep bv := mk_endpoint (bus x) n]> (endpoints (w_heap w0)))
                     (w_heap w0))) as (D1 & D2 & D3).
      rewrite D1, D2, D3. simpl. now rewrite E1, E2, E3.
    - unfold after. simpl. now rewrite E1, E2, E3. }
  destruct (is_null (on_complete bv)) eqn:Hcb.
  - apply is_null_true in Hcb.
    rewrite (finish_no_callback env batch bv w Hnn Hb Hep Hcb).
    apply Hdestroy; reflexivity.
  - assert (Hcb' : on_complete bv <> NULL).
    { intros E. rewrite E in Hcb. discriminate Hcb. }
    rewrite (finish_with_callback env batch bv w Hnn Hb Hep Hcb').
    destruct (callbacks_ok (on_complete bv) (on_complete_data bv) (error bv)
                (transfered_size bv) (w_heap w)) as (C1 & C2 & C3).
    apply Hdestroy; assumption.
Qed.

(** The same for either way of completing a batch. *)
Lemma complete_returns (c : completion) (batch : ptr) (bv : usb_transfer_batch_t)
    (x : endpoint_t) (v : bus_t) (n : nat) (w : world) :
  batch <> NULL ->
  batches (w_heap w) !! batch = Some bv ->
  ep bv <> NULL ->
  endpoints (w_heap w) !! ep bv = Some x ->
  refcnt x = S n ->
  buses (w_heap w) !! bus x = Some v ->
  exists w2,
    complete env (c, batch) w = Done tt w2 /\
    batches (w_heap w2) = delete batch (batches (w_heap w)) /\
    endpoints (w_heap w2) = <[ep bv := mk_endpoint (bus x) n]> (endpoints (w_heap w)) /\
    buses (w_heap w2) = buses (w_heap w).
Proof using callbacks_ok destroy_ok.
  intros Hnn Hb Hep Hx Hn Hv. destruct c; simpl.
  - exact (finish_returns batch bv x v n w Hnn Hb Hep Hx Hn Hv).
  - rewrite (abort_steps env batch bv w Hnn Hb Hep).
    set (w1 := with_heap _ w).
    assert (Hb1 : batches (w_heap w1) !! batch = Some (set_error (EAGAIN env) bv))
      by apply lookup_insert_eq.
    destruct (finish_returns batch (set_error (EAGAIN env) bv) x v n w1 Hnn Hb1 Hep Hx Hn Hv)
      as (w2 & Hrun & B & E & U).
    exists w2. split; [exact Hrun |].
    split; [| split; assumption].
    rewrite B. simpl. apply delete_insert_eq.
Qed.



End Balance.

(** The sample backend keeps to its obligations. *)
Lemma sample_callbacks_keep_objects : callbacks_keep_objects sample_env.
Proof. intros fn data err size h. simpl. auto. Qed.

Lemma sample_destroy_override_releases : destroy_override_releases sample_env.
Proof. intros fn b h. simpl. auto. Qed.



(** * Further properties of the batch code *)

(** ** The initializer *)

(** [init] on a live batch and a live endpoint returns after exactly one
    [add_ref] on the endpoint; the batch is bound to the endpoint and keeps
    every other field; no other batch changes and the endpoint's count is one
    higher.  An endpoint the batch was bound to before is not released. *)
Theorem init_takes_reference_and_binds (batch e : ptr) (b : usb_transfer_batch_t)
    (x : endpoint_t) (w : world) :
  e <> NULL ->
  batches (w_heap w) !! batch = Some b ->
  endpoints (w_heap w) !! e = Some x ->
  exists w' b',
    usb_transfer_batch_init batch e w = Done tt w' /\
    w_trace w' = w_trace w ++ [EvAddRef e] /\
    batches (w_heap w') !! batch = Some b' /\
    ep b' = e /\ dir b' = dir b /\ buffer b' = buffer b /\
    buffer_size b' = buffer_size b /\ transfered_size b' = transfered_size b /\
    error b' = error b /\ toggle_reset_mode b' = toggle_reset_mode b /\
    target b' = target b /\ on_complete b' = on_complete b /\
    on_complete_data b' = on_complete_data b /\
    (forall p, p <> batch -> batches (w_heap w') !! p = batches (w_heap w) !! p) /\
    endpoints (w_heap w') = <[e := mk_endpoint (bus x) (S (refcnt x))]> (endpoints (w_heap w)) /\
    buses (w_heap w') = buses (w_heap w) /\
    mem_avail (w_heap w') = mem_avail (w_heap w).
Proof.
  intros Hnn Hb Hx.
  eexists. exists (set_ep e b).
  split.
  { unfold usb_transfer_batch_init. rewrite (is_null_false _ Hnn). simpl negb.
    step_with (assert_true w).
    unfold endpoint_add_ref, bind, emit, load_endpoint, update_heap, with_heap,
      load_batch, store_batch.
    simpl. rewrite Hx. simpl. rewrite Hb. simpl. rewrite Hb. reflexivity. }
  simpl. split; [reflexivity |].
  split; [apply lookup_insert_eq |].
  repeat (split; [reflexivity |]).
  split; [| repeat split; reflexivity].
  intros p Hp. now apply lookup_insert_ne.
Qed.

Lemma init_takes_reference_and_binds_witness :
  exists w' b',
    usb_transfer_batch_init 1%N 20%N (world_with_batch (sample_batch (-5) RESET_EP 12 7%N)) =
      Done tt w' /\
    w_trace w' = [EvAddRef 20%N] /\
    batches (w_heap w') !! 1%N = Some b' /\
    ep b' = 20%N /\ dir b' = USB_DIRECTION_IN /\ buffer b' = 500%N /\
    buffer_size b' = 64%N /\ transfered_size b' = 12%N /\
    error b' = -5 /\ toggle_reset_mode b' = RESET_EP /\
    target b' = mk_target 3 1 /\ on_complete b' = 7%N /\
    on_complete_data b' = 900%N /\
    (forall p, p <> 1%N -> batches (w_heap w') !! p =
       batches (w_heap (world_with_batch (sample_batch (-5) RESET_EP 12 7%N))) !! p) /\
    endpoints (w_heap w') =
      <[20%N := mk_endpoint 200%N 2]>
        (endpoints (w_heap (world_with_batch (sample_batch (-5) RESET_EP 12 7%N)))) /\
    buses (w_heap w') = buses (w_heap (world_with_batch (sample_batch (-5) RESET_EP 12 7%N))) /\
    mem_avail (w_heap w') = 4%nat.
Proof.
  apply (init_takes_reference_and_binds 1%N 20%N (sample_batch (-5) RESET_EP 12 7%N)
           (mk_endpoint 200%N 1) (world_with_batch (sample_batch (-5) RESET_EP 12 7%N)));
    first [discriminate | reflexivity].
Defined.

(** ** What each entry point never does *)

(** The completion path takes nothing: whatever the batch and the world, and
    however the call ends, [destroy], [finish] and [abort] issue no
    [add_ref], no allocation and no [batch_create]. *)
Theorem completion_never_acquires (env : environment) (batch : ptr) :
  quiet is_acquire (usb_transfer_batch_destroy env batch) /\
  quiet is_acquire (usb_transfer_batch_finish env batch) /\
  quiet is_acquire (usb_transfer_batch_abort env batch).
Proof.
  assert (Hd : quiet is_acquire (usb_transfer_batch_destroy env batch)).
  { unfold usb_transfer_batch_destroy, endpoint_get_bus, endpoint_del_ref, usb_log_debug2.
    quiet_steps. }
  assert (Hf : quiet is_acquire (usb_transfer_batch_finish env batch)).
  { unfold usb_transfer_batch_finish, usb_log_debug2, usb_log_warning.
    quiet_steps; exact Hd. }
  split; [exact Hd | split; [exact Hf |]].
  unfold usb_transfer_batch_abort. quiet_steps; exact Hf.
Qed.

(** The creation path gives nothing back and completes nothing: [init] and
    [create] issue no [del_ref], no [free], no [batch_destroy], and invoke no
    completion callback. *)
Theorem creation_never_releases (env : environment) (batch e : ptr) :
  quiet is_release (usb_transfer_batch_init batch e) /\
  quiet is_on_complete (usb_transfer_batch_init batch e) /\
  quiet is_release (usb_transfer_batch_create env e) /\
  quiet is_on_complete (usb_transfer_batch_create env e).
Proof.
  assert (Hi : forall p b, p (EvAddRef e) = false -> quiet p (usb_transfer_batch_init b e)).
  { intros p b Hp. unfold usb_transfer_batch_init, endpoint_add_ref.
    repeat first [ apply quiet_bind; [| intros ?] | apply quiet_emit; exact Hp
                 | solve [auto with quiet] ]. }
  assert (Hc : forall p, p (EvAddRef e) = false -> (forall q, p (EvCalloc q) = false) ->
                         (forall f, p (EvBatchCreate f e) = false) ->
                         quiet p (usb_transfer_batch_create env e)).
  { intros p H1 H2 H3.
    assert (Ha : quiet p calloc_batch).
    { intros w. unfold calloc_batch.
      destruct (mem_avail (w_heap w)); simpl; rewrite select_app; simpl;
        rewrite H2; apply app_nil_r. }
    unfold usb_transfer_batch_create, endpoint_get_bus.
    repeat first [ apply Hi; exact H1 | exact Ha
                 | apply quiet_bind; [| intros ?] | apply quiet_call; apply H3
                 | solve [auto with quiet]
                 | match goal with
                   | |- quiet _ (match ?c with _ => _ end) => destruct c
                   end ]. }
  repeat split; first [apply Hi | apply Hc]; reflexivity.
Qed.

(** The trace a framed computation ends with extends the trace it started
    from. *)
Lemma framed_extends {A} (m : M A) (w : world) :
  framed m ->
  w_trace (world_of (m w)) =
  w_trace w ++ w_trace (world_of (m (mk_world (w_heap w) []))).
Proof.
  intros Hm. destruct w as [h t]. simpl. rewrite (Hm h t).
  now destruct (m (mk_world h [])).
Qed.

(** ** Order of completion *)

(** When [finish] invokes a registered callback, it does so before anything
    is released: the trace gains the finishing message, the callback call and
    possibly the warning, none of which is a release, and only then what
    [destroy] does ([del_ref], [free] or [batch_destroy]), in which no
    callback call occurs. *)
Theorem finish_calls_back_before_release (env : environment) (batch : ptr)
    (b : usb_transfer_batch_t) (w : world) :
  batch <> NULL ->
  batches (w_heap w) !! batch = Some b ->
  ep b <> NULL ->
  on_complete b <> NULL ->
  exists before rest,
    w_trace (world_of (usb_transfer_batch_finish env batch w)) =
      w_trace w ++ before ++ rest /\
    select is_on_complete before =
      [EvOnComplete (on_complete b) (on_complete_data b) (error b) (transfered_size b)] /\
    select is_release before = [] /\
    select is_on_complete rest = [].
Proof.
  intros Hnn Hb Hep Hcb.
  rewrite (finish_with_callback env batch b w Hnn Hb Hep Hcb).
  set (r := on_complete_fn env _ _ _ _ _).
  exists (finish_events batch b (fst r)).
  exists (w_trace (world_of (usb_transfer_batch_destroy env batch (mk_world (snd r) [])))).
  split.
  { rewrite (framed_extends _ _ (destroy_framed env batch)). unfold after. simpl.
    now rewrite <- app_assoc. }
  split; [apply select_finish_events |].
  split.
  { unfold finish_events. now destruct (Z.eqb (fst r) 0). }
  apply (destroy_no_callback env batch (mk_world (snd r) [])).
Qed.

Lemma finish_calls_back_before_release_witness :
  exists before rest,
    w_trace (world_of (usb_transfer_batch_finish sample_env 1%N
                         (world_with_batch (sample_batch (-5) RESET_NONE 12 7%N)))) =
      w_trace (world_with_batch (sample_batch (-5) RESET_NONE 12 7%N)) ++ before ++ rest /\
    select is_on_complete before = [EvOnComplete 7%N 900%N (-5) 12%N] /\
    select is_release before = [] /\
    select is_on_complete rest = [].
Proof.
  apply (finish_calls_back_before_release sample_env 1%N
           (sample_batch (-5) RESET_NONE 12 7%N)
           (world_with_batch (sample_batch (-5) RESET_NONE 12 7%N)));
    first [discriminate | reflexivity].
Defined.

(** ** Toggle reset, whatever the batch *)

(** [reset_toggle] only ever logs a debug message and calls the bus's
    [reset_toggle]: for every batch and world, however the call ends, it
    issues no reference operation, no allocation or release, no callback, and
    at most one toggle reset. *)
Theorem reset_toggle_does_nothing_else (env : environment) (batch : ptr) (w : world) :
  select beyond_toggle_reset
    (w_trace (world_of (usb_transfer_batch_reset_toggle env batch w))) =
    select beyond_toggle_reset (w_trace w) /\
  (length (select is_reset_toggle
             (w_trace (world_of (usb_transfer_batch_reset_toggle env batch w)))) <=
   S (length (select is_reset_toggle (w_trace w))))%nat.
Proof.
  unfold usb_transfer_batch_reset_toggle, endpoint_get_bus, usb_log_debug2, bind,
    assert_, load_batch, load_endpoint, emit, call, ret, fault.
  destruct (negb (is_null batch)); simpl; [| split; [reflexivity | lia]].
  destruct (batches (w_heap w) !! batch) as [b |]; simpl; [| split; [reflexivity | lia]].
  destruct (negb (Z.eqb (error b) EOK) || _); simpl; [split; [reflexivity | lia] |].
  destruct (endpoints (w_heap w) !! ep b) as [x |]; simpl.
  - destruct (bus_reset_toggle env _ _ _ _) as [st h]. simpl.
    rewrite !select_app. simpl. rewrite !app_nil_r, !length_app. simpl. split; [reflexivity | lia].
  - rewrite !select_app. simpl. rewrite !app_nil_r. split; [reflexivity | lia].
Qed.

(** ** Creation and completion undo each other *)

(** On a bus that overrides neither allocation nor destruction, creating a
    batch and completing it right away (by [finish] or by [abort]) puts the
    object store back exactly as it was: batches, endpoints with their
    counts, buses and the allocator's budget. *)
Theorem create_complete_restores_store (env : environment) (c : completion) (e : ptr)
    (x : endpoint_t) (v : bus_t) (m : nat) (w : world) :
  e <> NULL ->
  endpoints (w_heap w) !! e = Some x ->
  buses (w_heap w) !! bus x = Some v ->
  BUS_OPS_LOOKUP (ops v) batch_create = None ->
  BUS_OPS_LOOKUP (ops v) batch_destroy = None ->
  mem_avail (w_heap w) = S m ->
  exists batch w1 w2,
    usb_transfer_batch_create env e w = Done batch w1 /\
    complete env (c, batch) w1 = Done tt w2 /\
    w_heap w2 = w_heap w.
Proof.
  intros Hnn Hx Hv Hc Hd Hm.
  exists (fresh_block (w_heap w)).
  rewrite (create_generic_runs env e x v m w Hnn Hx Hv Hc Hm).
  set (p := fresh_block (w_heap w)).
  set (w1 := after _ _ w).
  assert (Hp : p <> NULL) by apply fresh_block_not_null.
  assert (Hb1 : batches (w_heap w1) !! p = Some (set_ep e zero_batch))
    by apply lookup_insert_eq.
  assert (Hx1 : endpoints (w_heap w1) !! e = Some (mk_endpoint (bus x) (S (refcnt x))))
    by apply lookup_insert_eq.
  assert (Hrestore : forall h : heap,
    batches h = batches (w_heap w) -> endpoints h = endpoints (w_heap w) ->
    buses h = buses (w_heap w) -> mem_avail h = mem_avail (w_heap w) -> h = w_heap w).
  { intros [a1 a2 a3 a4]. destruct (w_heap w). simpl. congruence. }
  exists w1. destruct c; simpl.
  - rewrite (finish_no_callback env p _ w1 Hp Hb1 Hnn eq_refl).
    rewrite (destroy_runs env p _ _ v (refcnt x)
               (after (w_heap w1) [EvLogDebug2 (MsgFinishing p)] w1) Hp Hb1 Hnn Hx1 eq_refl Hv).
    rewrite Hd. eexists. split; [reflexivity | split; [reflexivity |]].
    apply Hrestore; simpl.
    + rewrite delete_insert_eq. apply delete_id, fresh_block_unused.
    + rewrite insert_insert_eq. destruct x. now apply insert_id.
    + reflexivity.
    + now rewrite Hm.
  - rewrite (abort_steps env p _ w1 Hp Hb1 Hnn).
    set (w1' := with_heap _ w1).
    assert (Hb1' : batches (w_heap w1') !! p = Some (set_error (EAGAIN env) (set_ep e zero_batch)))
      by apply lookup_insert_eq.
    rewrite (finish_no_callback env p _ w1' Hp Hb1' Hnn eq_refl).
    rewrite (destroy_runs env p _ _ v (refcnt x)
               (after (w_heap w1') [EvLogDebug2 (MsgFinishing p)] w1') Hp Hb1' Hnn Hx1 eq_refl Hv).
    rewrite Hd. eexists. split; [reflexivity | split; [reflexivity |]].
    apply Hrestore; simpl.
    + rewrite !delete_insert_eq. apply delete_id, fresh_block_unused.
    + rewrite insert_insert_eq. destruct x. now apply insert_id.
    + reflexivity.
    + now rewrite Hm.
Qed.

Lemma create_complete_restores_store_witness :
  exists batch w1 w2,
    usb_transfer_batch_create sample_env 10%N (sample_world 4) = Done batch w1 /\
    complete sample_env (ByAbort, batch) w1 = Done tt w2 /\
    w_heap w2 = w_heap (sample_world 4).
Proof.
  apply (create_complete_restores_store sample_env ByAbort 10%N (mk_endpoint 100%N 1)
           generic_bus 3 (sample_world 4));
    first [discriminate | reflexivity].
Defined.

(** ** What creation leaves alone *)

(** The generic [create] changes nothing but the fresh batch and the count of
    the endpoint it is given: every batch that was live is as before, so is
    every other endpoint, the endpoint keeps its bus, the buses are as
    before, and the allocator has one block less. *)
Theorem create_generic_touches_nothing_else (env : environment) (e : ptr)
    (x : endpoint_t) (v : bus_t) (m : nat) (w : world) :
  e <> NULL ->
  endpoints (w_heap w) !! e = Some x ->
  buses (w_heap w) !! bus x = Some v ->
  BUS_OPS_LOOKUP (ops v) batch_create = None ->
  mem_avail (w_heap w) = S m ->
  exists batch w',
    usb_transfer_batch_create env e w = Done batch w' /\
    (forall p, p <> batch -> batches (w_heap w') !! p = batches (w_heap w) !! p) /\
    (forall e', e' <> e -> endpoints (w_heap w') !! e' = endpoints (w_heap w) !! e') /\
    (bus <$> endpoints (w_heap w') !! e) = Some (bus x) /\
    buses (w_heap w') = buses (w_heap w) /\
    mem_avail (w_heap w') = m.
Proof.
  intros Hnn Hx Hv Hops Hm.
  exists (fresh_block (w_heap w)). eexists.
  split; [apply (create_generic_runs env e x v m w Hnn Hx Hv Hops Hm) |].
  unfold after, created_heap. simpl.
  split; [intros p Hp; now apply lookup_insert_ne |].
  split; [intros e' He'; now apply lookup_insert_ne |].
  rewrite lookup_insert_eq. repeat split; reflexivity.
Qed.

Lemma create_generic_touches_nothing_else_witness :
  exists batch w',
    usb_transfer_batch_create sample_env 10%N (sample_world 4) = Done batch w' /\
    (forall p, p <> batch ->
       batches (w_heap w') !! p = batches (w_heap (sample_world 4)) !! p) /\
    (forall e', e' <> 10%N ->
       endpoints (w_heap w') !! e' = endpoints (w_heap (sample_world 4)) !! e') /\
    (bus <$> endpoints (w_heap w') !! 10%N) = Some 100%N /\
    buses (w_heap w') = buses (w_heap (sample_world 4)) /\
    mem_avail (w_heap w') = 3%nat.
Proof.
  apply (create_generic_touches_nothing_else sample_env 10%N (mk_endpoint 100%N 1)
           generic_bus 3 (sample_world 4));
    first [discriminate | reflexivity].
Defined.

(** ** Completion with well-behaved collaborators *)

(** With callbacks that leave the framework's objects alone and destruction
    overrides that release only their batch, completing (by [finish] or
    [abort]) a live batch of a live, referenced endpoint returns, whether a
    callback is registered or not and whatever it reports; afterwards the
    batch is gone, its endpoint has one reference less, and no other batch,
    endpoint or bus has changed. *)
Theorem completion_releases_batch_and_reference (env : environment) (c : completion)
    (batch : ptr) (bv : usb_transfer_batch_t) (x : endpoint_t) (v : bus_t) (n : nat)
    (w : world) :
  callbacks_keep_objects env ->
  destroy_override_releases env ->
  batch <> NULL ->
  batches (w_heap w) !! batch = Some bv ->
  ep bv <> NULL ->
  endpoints (w_heap w) !! ep bv = Some x ->
  refcnt x = S n ->
  buses (w_heap w) !! bus x = Some v ->
  exists w2,
    complete env (c, batch) w = Done tt w2 /\
    batches (w_heap w2) !! batch = None /\
    (forall p, p <> batch -> batches (w_heap w2) !! p = batches (w_heap w) !! p) /\
    refcount (ep bv) w2 = Some n /\
    (forall e', e' <> ep bv -> endpoints (w_heap w2) !! e' = endpoints (w_heap w) !! e') /\
    buses (w_heap w2) = buses (w_heap w).
Proof.
  intros Hcb Hds Hnn Hb Hep Hx Hn Hv.
  destruct (complete_returns env Hcb Hds c batch bv x v n w Hnn Hb Hep Hx Hn Hv)
    as (w2 & Hrun & B & E & U).
  exists w2. split; [exact Hrun |].
  unfold refcount. rewrite B, E.
  split; [apply lookup_delete_eq |].
  split; [intros p Hp; now apply lookup_delete_ne |].
  split; [now rewrite lookup_insert_eq |].
  split; [intros e' He'; now apply lookup_insert_ne | exact U].
Qed.

Lemma completion_releases_batch_and_reference_witness :
  exists w2,
    complete sample_env (ByFinish, 1%N)
      (world_with_batch (sample_batch (-5) RESET_NONE 12 7%N)) = Done tt w2 /\
    batches (w_heap w2) !! 1%N = None /\
    (forall p, p <> 1%N -> batches (w_heap w2) !! p =
       batches (w_heap (world_with_batch (sample_batch (-5) RESET_NONE 12 7%N))) !! p) /\
    refcount 10%N w2 = Some 1%nat /\
    (forall e', e' <> 10%N -> endpoints (w_heap w2) !! e' =
       endpoints (w_heap (world_with_batch (sample_batch (-5) RESET_NONE 12 7%N))) !! e') /\
    buses (w_heap w2) = buses (w_heap (world_with_batch (sample_batch (-5) RESET_NONE 12 7%N))).
Proof.
  apply (completion_releases_batch_and_reference sample_env ByFinish 1%N
           (sample_batch (-5) RESET_NONE 12 7%N) (mk_endpoint 100%N 2) generic_bus 1
           (world_with_batch (sample_batch (-5) RESET_NONE 12 7%N))
           sample_callbacks_keep_objects sample_destroy_override_releases);
    first [discriminate | reflexivity].
Defined.

(** ** Assertions come first *)

(** A batch that is bound to no endpoint is rejected by [destroy], [finish]
    and [abort] before they do anything: the task stops with the world as it
    was, so no callback has run, no reference was released, and [abort] has
    not overwritten the recorded error. *)
Theorem unbound_batch_is_rejected (env : environment) (batch : ptr)
    (b : usb_transfer_batch_t) (w : world) :
  batches (w_heap w) !! batch = Some b ->
  ep b = NULL ->
  usb_transfer_batch_destroy env batch w = Fault w /\
  usb_transfer_batch_finish env batch w = Fault w /\
  usb_transfer_batch_abort env batch w = Fault w.
Proof.
  intros Hb Hep.
  unfold usb_transfer_batch_destroy, usb_transfer_batch_finish, usb_transfer_batch_abort,
    bind, assert_, load_batch, ret, fault.
  destruct (negb (is_null batch)); simpl; [| auto].
  rewrite Hb, Hep. simpl. auto.
Qed.

Lemma unbound_batch_is_rejected_witness :
  usb_transfer_batch_destroy sample_env 1%N (world_with_batch zero_batch) =
    Fault (world_with_batch zero_batch) /\
  usb_transfer_batch_finish sample_env 1%N (world_with_batch zero_batch) =
    Fault (world_with_batch zero_batch) /\
  usb_transfer_batch_abort sample_env 1%N (world_with_batch zero_batch) =
    Fault (world_with_batch zero_batch).
Proof.
  apply (unbound_batch_is_rejected sample_env 1%N zero_batch (world_with_batch zero_batch));
    reflexivity.
Defined.

(** * The navigator application *)

(** ** Stepping *)

Lemma nav_bind_some {A B} (m : Nav.NM A) (k : A -> Nav.NM B) (st st' : Nav.state) (a : A) :
  m st = Some (a, st') -> Nav.bind m k st = k a st'.
Proof. intros H. unfold Nav.bind. now rewrite H. Qed.

Lemma nav_load_at (p : ptr) (n : Nav.navigator_t) (m : gmap N Nav.navigator_t)
    (a : nat) (t : list Nav.event) :
  Nav.load p (Nav.mk_state (<[p := n]> m) a t) = Some (n, Nav.mk_state (<[p := n]> m) a t).
Proof. unfold Nav.load. simpl. now rewrite lookup_insert_eq. Qed.

Lemma nav_update_at (p : ptr) (f : Nav.navigator_t -> Nav.navigator_t) (n : Nav.navigator_t)
    (m : gmap N Nav.navigator_t) (a : nat) (t : list Nav.event) :
  Nav.update p f (Nav.mk_state (<[p := n]> m) a t) =
  Some (tt, Nav.mk_state (<[p := f n]> m) a t).
Proof. unfold Nav.update. simpl. now rewrite lookup_insert_eq, insert_insert_eq. Qed.

Lemma nav_free_at (p : ptr) (n : Nav.navigator_t) (m : gmap N Nav.navigator_t)
    (a : nat) (t : list Nav.event) :
  m !! p = None ->
  Nav.free p (Nav.mk_state (<[p := n]> m) a t) =
  Some (tt, Nav.mk_state m (S a) (t ++ [Nav.EvFree p])).
Proof.
  intros Hp. unfold Nav.free. simpl.
  now rewrite lookup_insert_eq, delete_insert_eq, (delete_id _ _ Hp).
Qed.

Lemma nav_emit_at (e : Nav.event) (m : gmap N Nav.navigator_t) (a : nat) (t : list Nav.event) :
  Nav.emit e (Nav.mk_state m a t) = Some (tt, Nav.mk_state m a (t ++ [e])).
Proof. reflexivity. Qed.

(** [navigator_destroy] on a live navigator: the destroying calls its fields
    ask for, then the block is freed. *)
Lemma navigator_destroy_at (p : ptr) (n : Nav.navigator_t) (m : gmap N Nav.navigator_t)
    (a : nat) (t : list Nav.event) :
  m !! p = None ->
  Nav.navigator_destroy p (Nav.mk_state (<[p := n]> m) a t) =
  Some (tt, Nav.mk_state m (S a) (t ++ Nav.destroy_events n ++ [Nav.EvFree p])).
Proof.
  intros Hp. unfold Nav.navigator_destroy.
  rewrite (nav_bind_some _ _ _ _ _ (nav_load_at p n m a t)).
  unfold Nav.destroy_events.
  destruct (negb (is_null (Nav.menu n))), (negb (is_null (Nav.window n))),
    (negb (is_null (Nav.ui n)));
    unfold Nav.bind, Nav.ret; rewrite ?nav_emit_at; rewrite (nav_free_at p n m _ _ Hp);
    simpl; rewrite <- ?app_assoc; reflexivity.
Qed.

Ltac nav_step :=
  match goal with
  | |- context [Nav.bind (Nav.emit ?e) ?k (Nav.mk_state ?m ?a ?t)] =>
      rewrite (nav_bind_some _ k _ _ _ (nav_emit_at e m a t))
  | |- context [Nav.bind (Nav.load ?p) ?k (Nav.mk_state (<[_ := ?n]> ?m) ?a ?t)] =>
      rewrite (nav_bind_some _ k _ _ _ (nav_load_at p n m a t))
  | |- context [Nav.bind (Nav.update ?p ?f) ?k (Nav.mk_state (<[_ := ?n]> ?m) ?a ?t)] =>
      rewrite (nav_bind_some _ k _ _ _ (nav_update_at p f n m a t))
  | H : _ !! _ = None
    |- context [Nav.bind (Nav.navigator_destroy ?p) ?k (Nav.mk_state (<[_ := ?n]> ?m) ?a ?t)] =>
      rewrite (nav_bind_some _ k _ _ _ (navigator_destroy_at p n m a t H))
  end;
  cbv beta.

Ltac nav_fields :=
  cbn [Nav.ui Nav.window Nav.fixed Nav.menu Nav.set_ui Nav.set_window Nav.set_fixed
       Nav.set_menu Nav.zero_navigator].

Lemma nav_is_null_of_failure (rc : Z) (h : ptr) :
  (rc = EOK <-> h <> NULL) -> Z.eqb rc EOK = false -> is_null h = true.
Proof.
  intros Hc Hrc. apply Z.eqb_neq in Hrc. unfold is_null. apply N.eqb_eq.
  destruct (N.eq_dec h NULL) as [E | E]; [exact E |]. apply Hc in E. contradiction.
Qed.

Lemma nav_is_null_of_success (rc : Z) (h : ptr) :
  (rc = EOK <-> h <> NULL) -> Z.eqb rc EOK = true -> is_null h = false.
Proof.
  intros Hc Hrc. apply Z.eqb_eq in Hrc. apply is_null_false. now apply Hc.
Qed.

Lemma nav_window_params (env : Nav.environment) :
  Nav.navigator_window_params env
    (Nav.mk_params "Navigator"
       (Z.land (Nav.style (Nav.ui_wnd_params_init env)) (Z.lnot (Nav.ui_wds_decorated env)))
       (Nav.ui_wnd_place_full_screen env)).
Proof.
  split; [reflexivity | split; [reflexivity | split]]; simpl.
  - apply Z.bits_inj'. intros i Hi.
    rewrite !Z.land_spec, Z.lnot_spec, Z.bits_0 by exact Hi.
    now destruct (Z.testbit _ i), (Z.testbit (Nav.ui_wds_decorated env) i).
  - intros i Hi. now rewrite Z.land_spec, Z.lnot_spec by exact Hi.
Qed.

(** Every way [navigator_create] can end. *)
Lemma navigator_create_outcome (env : Nav.environment) (spec : string) (st : Nav.state) :
  Nav.conventional env ->
  match Nav.navigator_create env spec st with
  | None => False
  | Some ((rc, r), st') =>
  exists d,
    Nav.trace st' = Nav.trace st ++ d /\
    Forall (Nav.window_created_with env) d /\
    Forall (fun e => Nav.is_ui_run e = false) d /\
    ((rc = EOK /\
      exists p n,
        r = Some p /\ Nav.navigators st !! p = None /\
        Nav.navigators st' = <[p := n]> (Nav.navigators st) /\
        Nav.avail st = S (Nav.avail st') /\
        Nav.ui n <> NULL /\ Nav.window n <> NULL /\ Nav.menu n <> NULL /\
        Nav.acquired d = [Nav.RUi (Nav.ui n); Nav.RWindow (Nav.window n); Nav.RMenu (Nav.menu n)] /\
        Nav.released d = []) \/
     (rc <> EOK /\ r = None /\
      Nav.navigators st' = Nav.navigators st /\
      Nav.avail st' = Nav.avail st /\
      Nav.released d = rev (Nav.acquired d)))
  end.
Proof.
  intros (Hmem & Hui & Hwin & Hmenu).
  destruct st as [m a t]. unfold Nav.navigator_create.
  unfold Nav.bind at 1, Nav.calloc. simpl Nav.avail. destruct a as [| k]; simpl.
  { eexists. split; [reflexivity |].
    split; [repeat constructor |]. split; [repeat constructor |].
    right. repeat split; auto. }
  set (p := fresh ({[NULL]} ∪ dom m : gset N)).
  assert (Hfresh : p ∉ ({[NULL]} ∪ dom m : gset N)) by apply is_fresh.
  assert (Hp : p <> NULL).
  { intros E. apply Hfresh. rewrite E. now apply elem_of_union_l, elem_of_singleton. }
  assert (Hm : m !! p = None).
  { apply not_elem_of_dom. intros E. apply Hfresh. now apply elem_of_union_r. }
  rewrite (is_null_false _ Hp).
  specialize (Hui spec).
  destruct (Nav.ui_create env spec) as [rc1 h1]. simpl in Hui.
  unfold Nav.printf, Nav.navigator_create_error.
  do 2 nav_step.
  destruct (Z.eqb rc1 EOK) eqn:E1; cbn [negb]; cbv iota.
  2:{ do 2 nav_step. unfold Nav.ret. eexists.
      simpl. rewrite <- !app_assoc.
      split; [reflexivity |]. unfold Nav.destroy_events. simpl.
      rewrite (nav_is_null_of_failure _ _ Hui E1). simpl.
      split; [repeat constructor |]. split; [repeat constructor |].
      right. rewrite E1. simpl. apply Z.eqb_neq in E1. repeat split; auto. }
  pose proof (nav_is_null_of_success _ _ Hui E1) as N1.
  do 2 nav_step. nav_fields.
  match goal with
  | |- context [Nav.ui_window_create env ?u ?ps] =>
      specialize (Hwin u ps); destruct (Nav.ui_window_create env u ps) as [rc2 h2]
  end.
  simpl in Hwin. do 2 nav_step.
  destruct (Z.eqb rc2 EOK) eqn:E2; cbn [negb]; cbv iota.
  2:{ do 2 nav_step. unfold Nav.ret. eexists.
      simpl. rewrite <- !app_assoc.
      split; [reflexivity |]. unfold Nav.destroy_events. simpl.
      rewrite (nav_is_null_of_failure _ _ Hwin E2), N1. simpl.
      split; [repeat constructor; apply nav_window_params |]. split; [repeat constructor |].
      right. rewrite E1, E2. simpl. apply Z.eqb_neq in E2. repeat split; auto. }
  pose proof (nav_is_null_of_success _ _ Hwin E2) as N2.
  do 2 nav_step. nav_fields.
  destruct (Nav.ui_fixed_create env) as [rc3 h3].
  do 2 nav_step.
  destruct (Z.eqb rc3 EOK) eqn:E3; cbn [negb]; cbv iota.
  2:{ do 2 nav_step. unfold Nav.ret. eexists.
      simpl. rewrite <- !app_assoc.
      split; [reflexivity |]. unfold Nav.destroy_events. simpl.
      rewrite N1, N2. simpl.
      split; [repeat constructor; apply nav_window_params |]. split; [repeat constructor |].
      right. rewrite E1, E2. simpl. apply Z.eqb_neq in E3. repeat split; auto. }
  do 2 nav_step. nav_fields.
  specialize (Hmenu p).
  destruct (Nav.nav_menu_create env p) as [rc4 h4]. simpl in Hmenu.
  do 2 nav_step.
  destruct (Z.eqb rc4 EOK) eqn:E4; cbn [negb]; cbv iota.
  2:{ nav_step. unfold Nav.ret. eexists.
      simpl. rewrite <- !app_assoc.
      split; [reflexivity |]. unfold Nav.destroy_events. simpl.
      rewrite (nav_is_null_of_failure _ _ Hmenu E4), N1, N2. simpl.
      split; [repeat constructor; apply nav_window_params |]. split; [repeat constructor |].
      right. rewrite E1, E2, E4. simpl. apply Z.eqb_neq in E4. repeat split; auto. }
  pose proof (nav_is_null_of_success _ _ Hmenu E4) as N4.
  do 2 nav_step. nav_fields.
  destruct (Z.eqb (Nav.ui_window_paint env h2) EOK) eqn:E5; cbn [negb]; cbv iota.
  2:{ do 2 nav_step. unfold Nav.ret. eexists.
      simpl. rewrite <- !app_assoc.
      split; [reflexivity |]. unfold Nav.destroy_events. simpl.
      rewrite N1, N2, N4. simpl.
      split; [repeat constructor; apply nav_window_params |]. split; [repeat constructor |].
      right. rewrite E1, E2, E4. simpl. apply Z.eqb_neq in E5. repeat split; auto. }
  unfold Nav.ret. eexists.
  simpl. rewrite <- !app_assoc.
  split; [reflexivity |].
  split; [repeat constructor; apply nav_window_params |]. split; [repeat constructor |].
  left. split; [reflexivity |]. do 2 eexists.
  split; [reflexivity |]. split; [exact Hm |]. split; [reflexivity |].
  split; [reflexivity |]. simpl. rewrite E1, E2, E4. simpl.
  unfold is_null in N1, N2, N4. apply N.eqb_neq in N1, N2, N4.
  repeat split; auto.
Qed.

Lemma nav_acquired_app (t1 t2 : list Nav.event) :
  Nav.acquired (t1 ++ t2) = Nav.acquired t1 ++ Nav.acquired t2.
Proof. apply flat_map_app. Qed.

Lemma nav_released_app (t1 t2 : list Nav.event) :
  Nav.released (t1 ++ t2) = Nav.released t1 ++ Nav.released t2.
Proof. apply flat_map_app. Qed.

(** ** Creating the navigator *)

(** With collaborators that keep to the convention, [navigator_create]
    always returns, and it is all or nothing.  Either it returns [EOK] and a
    fresh navigator holding a UI, a window and a menu, the only resources
    acquired, none released.  Or it returns an error, stores no navigator,
    has freed the block it allocated (the store and the allocator are as
    before), and has released every resource it had acquired, in reverse
    order of acquisition. *)
Theorem navigator_create_all_or_nothing (env : Nav.environment) (spec : string)
    (st : Nav.state) :
  Nav.conventional env ->
  exists rc r st' d,
    Nav.navigator_create env spec st = Some ((rc, r), st') /\
    Nav.trace st' = Nav.trace st ++ d /\
    ((rc = EOK /\
      exists p n,
        r = Some p /\ Nav.navigators st !! p = None /\
        Nav.navigators st' = <[p := n]> (Nav.navigators st) /\
        Nav.acquired d = [Nav.RUi (Nav.ui n); Nav.RWindow (Nav.window n); Nav.RMenu (Nav.menu n)] /\
        Nav.released d = []) \/
     (rc <> EOK /\ r = None /\
      Nav.navigators st' = Nav.navigators st /\
      Nav.avail st' = Nav.avail st /\
      Nav.released d = rev (Nav.acquired d))).
Proof.
  intros Hconv. pose proof (navigator_create_outcome env spec st Hconv) as H.
  destruct (Nav.navigator_create env spec st) as [[[rc r] st'] |]; [| contradiction].
  destruct H as (d & Ht & _ & _ & Hcases).
  exists rc, r, st', d. split; [reflexivity |]. split; [exact Ht |].
  destruct Hcases as [(Hrc & p & n & Hr & Hnew & Hst & _ & _ & _ & _ & Hacq & Hrel) | Hfail].
  - left. split; [exact Hrc |]. exists p, n. auto.
  - right. exact Hfail.
Qed.

Lemma nav_working_ui_conventional : Nav.conventional Nav.working_ui.
Proof. repeat split; simpl; intros; discriminate. Qed.

Lemma nav_unpaintable_ui_conventional : Nav.conventional Nav.unpaintable_ui.
Proof. repeat split; simpl; intros; discriminate. Qed.

Lemma navigator_create_all_or_nothing_witness :
  exists rc r st' d,
    Nav.navigator_create Nav.unpaintable_ui "disp" (Nav.initial 1) = Some ((rc, r), st') /\
    Nav.trace st' = Nav.trace (Nav.initial 1) ++ d /\
    ((rc = EOK /\
      exists p n,
        r = Some p /\ Nav.navigators (Nav.initial 1) !! p = None /\
        Nav.navigators st' = <[p := n]> (Nav.navigators (Nav.initial 1)) /\
        Nav.acquired d = [Nav.RUi (Nav.ui n); Nav.RWindow (Nav.window n); Nav.RMenu (Nav.menu n)] /\
        Nav.released d = []) \/
     (rc <> EOK /\ r = None /\
      Nav.navigators st' = Nav.navigators (Nav.initial 1) /\
      Nav.avail st' = Nav.avail (Nav.initial 1) /\
      Nav.released d = rev (Nav.acquired d))).
Proof.
  apply (navigator_create_all_or_nothing Nav.unpaintable_ui "disp" (Nav.initial 1)
           nav_unpaintable_ui_conventional).
Defined.

(** Whenever [navigator_create] asks for a window, it asks for the library's
    default parameters with the caption "Navigator", full-screen placement
    and the decoration bits cleared, every other style bit kept. *)
Theorem navigator_window_is_undecorated_full_screen (env : Nav.environment)
    (spec : string) (st st' : Nav.state) (res : Z * option ptr)
    (u h : ptr) (p : Nav.ui_wnd_params_t) (rc : Z) :
  Nav.conventional env ->
  Nav.navigator_create env spec st = Some (res, st') ->
  In (Nav.EvUiWindowCreate u p rc h) (Nav.trace st') ->
  In (Nav.EvUiWindowCreate u p rc h) (Nav.trace st) \/ Nav.navigator_window_params env p.
Proof.
  intros Hconv Hrun Hin.
  pose proof (navigator_create_outcome env spec st Hconv) as H.
  rewrite Hrun in H. destruct res as [rc0 r].
  destruct H as (d & Ht & Hwin & _).
  rewrite Ht in Hin. apply in_app_or in Hin as [Hin | Hin]; [now left | right].
  rewrite List.Forall_forall in Hwin. exact (Hwin _ Hin).
Qed.

Lemma navigator_window_is_undecorated_full_screen_witness :
  In (Nav.EvUiWindowCreate 11%N (Nav.mk_params "Navigator" 16 3) EOK 12%N)
     (Nav.trace (Nav.initial 1)) \/
  Nav.navigator_window_params Nav.working_ui (Nav.mk_params "Navigator" 16 3).
Proof.
  apply (navigator_window_is_undecorated_full_screen Nav.working_ui "disp" (Nav.initial 1)
           (Nav.mk_state (<[1%N := Nav.mk_navigator 11%N 12%N 13%N 14%N]> ∅) 0
              [Nav.EvCalloc 1%N; Nav.EvUiCreate "disp" EOK 11%N; Nav.EvUiWndParamsInit;
               Nav.EvUiWindowCreate 11%N (Nav.mk_params "Navigator" 16 3) EOK 12%N;
               Nav.EvUiWindowSetCb 12%N 1%N; Nav.EvUiFixedCreate EOK 13%N;
               Nav.EvUiWindowAdd 12%N 13%N; Nav.EvNavMenuCreate 1%N EOK 14%N;
               Nav.EvUiWindowPaint 12%N EOK])
           (EOK, Some 1%N) 11%N 12%N (Nav.mk_params "Navigator" 16 3) EOK
           nav_working_ui_conventional).
  - vm_compute. reflexivity.
  - simpl. auto 10.
Defined.

(** ** Running the navigator *)

(** With collaborators that keep to the convention, [navigator_run] always
    returns, and it returns the status of [navigator_create].  That status is
    [EOK] exactly when a navigator was created; then [navigator_run] goes on
    to run the UI of that navigator, once, and to destroy the navigator, and
    does nothing else; otherwise it stops where [navigator_create] stopped.
    Either way nothing leaks: the store and the allocator are as before the
    call, and every resource acquired has been released, in reverse order. *)
Theorem navigator_run_releases_everything (env : Nav.environment) (spec : string)
    (st : Nav.state) :
  Nav.conventional env ->
  exists rc r st0 st' d,
    Nav.navigator_create env spec st = Some ((rc, r), st0) /\
    Nav.navigator_run env spec st = Some (rc, st') /\
    (rc = EOK <-> r <> None) /\
    match r with
    | Some p =>
        exists n,
          Nav.navigators st0 !! p = Some n /\
          Nav.trace st' =
            Nav.trace st0 ++ Nav.EvUiRun (Nav.ui n) :: Nav.destroy_events n ++ [Nav.EvFree p]
    | None => st' = st0
    end /\
    Nav.trace st' = Nav.trace st ++ d /\
    Nav.navigators st' = Nav.navigators st /\
    Nav.avail st' = Nav.avail st /\
    Nav.released d = rev (Nav.acquired d) /\
    length (List.filter Nav.is_ui_run d) = (if Z.eqb rc EOK then 1 else 0)%nat /\
    (rc = EOK -> length (Nav.acquired d) = 3%nat).
Proof.
  intros Hconv. pose proof (navigator_create_outcome env spec st Hconv) as H.
  unfold Nav.navigator_run.
  destruct (Nav.navigator_create env spec st) as [[[rc r] st1] |] eqn:Hrun; [| contradiction].
  rewrite (nav_bind_some _ _ _ _ _ Hrun).
  destruct H as (d & Ht & _ & Hnorun & Hcases).
  assert (Hcount : length (List.filter Nav.is_ui_run d) = 0%nat).
  { clear -Hnorun. induction Hnorun as [| e d He _ IH]; [reflexivity |].
    simpl. now rewrite He. }
  destruct Hcases as [(Hrc & p & n & Hr & Hnew & Hst & Hav & Hu & Hw & Hm & Hacq & Hrel)
                     | (Hrc & Hr & Hst & Hav & Hrel)].
  - subst rc r. simpl Z.eqb. cbn [negb]. cbv iota.
    clear Hrun.
    destruct st as [m a t], st1 as [m1 a1 t1]. simpl in *. subst m1 t1 a.
    do 3 nav_step.
    unfold Nav.ret. exists EOK, (Some p). do 3 eexists.
    split; [reflexivity |]. split; [reflexivity |].
    split; [split; [discriminate | reflexivity] |].
    split.
    { exists n. simpl. split; [apply lookup_insert_eq |].
      rewrite <- !app_assoc. reflexivity. }
    simpl.
    split; [rewrite <- !app_assoc; reflexivity |].
    split; [reflexivity |]. split; [reflexivity |].
    unfold Nav.destroy_events.
    rewrite (is_null_false _ Hu), (is_null_false _ Hw), (is_null_false _ Hm). simpl.
    rewrite !nav_released_app, !nav_acquired_app, Hacq, Hrel, List.filter_app, length_app, Hcount.
    simpl. repeat split; reflexivity.
  - subst r. pose proof Hrc as Hne. apply Z.eqb_neq in Hrc. rewrite Hrc. cbn [negb]. cbv iota.
    unfold Nav.ret. exists rc, None, st1, st1, d. rewrite Hrc.
    split; [reflexivity |]. split; [reflexivity |].
    split; [split; [intros E; contradiction | intros E; now contradiction E] |].
    repeat split; auto. intros E. contradiction.
Qed.

Lemma navigator_run_releases_everything_witness :
  exists rc r st0 st' d,
    Nav.navigator_create Nav.working_ui "disp" (Nav.initial 1) = Some ((rc, r), st0) /\
    Nav.navigator_run Nav.working_ui "disp" (Nav.initial 1) = Some (rc, st') /\
    (rc = EOK <-> r <> None) /\
    match r with
    | Some p =>
        exists n,
          Nav.navigators st0 !! p = Some n /\
          Nav.trace st' =
            Nav.trace st0 ++ Nav.EvUiRun (Nav.ui n) :: Nav.destroy_events n ++ [Nav.EvFree p]
    | None => st' = st0
    end /\
    Nav.trace st' = Nav.trace (Nav.initial 1) ++ d /\
    Nav.navigators st' = Nav.navigators (Nav.initial 1) /\
    Nav.avail st' = Nav.avail (Nav.initial 1) /\
    Nav.released d = rev (Nav.acquired d) /\
    length (List.filter Nav.is_ui_run d) = (if Z.eqb rc EOK then 1 else 0)%nat /\
    (rc = EOK -> length (Nav.acquired d) = 3%nat).
Proof.
  apply (navigator_run_releases_everything Nav.working_ui "disp" (Nav.initial 1)
           nav_working_ui_conventional).
Defined.

(** ** The command line *)

Lemma nav_last_nonempty (y : string) (ys : list string) (d1 d2 : string) :
  List.last (y :: ys) d1 = List.last (y :: ys) d2.
Proof.
  revert y. induction ys as [| z zs IH]; intros y; [reflexivity |].
  change (List.last (z :: zs) d1 = List.last (z :: zs) d2). apply IH.
Qed.

Lemma nav_last_cons (x d : string) (xs : list string) :
  List.last (x :: xs) d = List.last xs x.
Proof. destruct xs as [| y ys]; [reflexivity |]. apply (nav_last_nonempty y ys d x). Qed.

(** The option loop on any number of [-d <display-spec>] pairs: nothing is
    printed and the last specification given wins. *)
Lemma main_options_pairs (specs : list string) :
  forall (d : string) (st : Nav.state),
    Nav.main_options (Nav.option_pairs specs) d st = Some (Some (List.last specs d), st).
Proof.
  induction specs as [| x xs IH]; intros d st; [reflexivity |].
  rewrite nav_last_cons. simpl. apply IH.
Qed.

(** [main] accepts any number of [-d <display-spec>] pairs after the program
    name: it prints nothing, runs the navigator on the last specification
    given (on the default console when there is none), and exits with 0 when
    the navigator returned [EOK] and with 1 otherwise. *)
Theorem main_runs_on_last_display_option (env : Nav.environment) (prog : string)
    (specs : list string) (st : Nav.state) :
  Nav.main env (prog :: Nav.option_pairs specs) st =
  match Nav.navigator_run env (List.last specs (Nav.UI_CONSOLE_DEFAULT env)) st with
  | Some (rc, st') => Some (if Z.eqb rc EOK then 0 else 1, st')
  | None => None
  end.
Proof.
  unfold Nav.main. simpl tail.
  rewrite (nav_bind_some _ _ _ _ _ (main_options_pairs specs _ st)).
  unfold Nav.bind.
  destruct (Nav.navigator_run env _ st) as [[rc st'] |]; [| reflexivity].
  now destruct (Z.eqb rc EOK).
Qed.

(** What the option loop does on arguments that are not such pairs. *)
Lemma main_options_rejects (n : nat) :
  forall (rest : list string) (d : string) (st : Nav.state),
    (length rest <= n)%nat ->
    (forall specs, rest <> Nav.option_pairs specs) ->
    exists msgs,
      Nav.main_options rest d st =
      Some (None, Nav.mk_state (Nav.navigators st) (Nav.avail st)
                    (Nav.trace st ++ map Nav.EvPrintf msgs ++ [Nav.EvPrintf Nav.Syntax])).
Proof.
  induction n as [| n IH]; intros rest d st Hlen Hbad.
  { destruct rest; [| simpl in Hlen; lia]. exfalso. apply (Hbad []). reflexivity. }
  destruct rest as [| arg rest'].
  { exfalso. apply (Hbad []). reflexivity. }
  simpl. destruct (Nav.starts_with_dash arg) eqn:Hdash.
  2:{ exists []. reflexivity. }
  destruct (String.eqb arg "-d") eqn:Hd.
  2:{ exists [Nav.InvalidOption arg]. unfold Nav.bind, Nav.printf, Nav.print_syntax, Nav.emit.
      simpl. now rewrite <- app_assoc. }
  apply String.eqb_eq in Hd. subst arg.
  destruct rest' as [| spec rest''].
  { exists [Nav.ArgumentMissing]. unfold Nav.bind, Nav.printf, Nav.print_syntax, Nav.emit.
    simpl. now rewrite <- app_assoc. }
  apply IH.
  - simpl in Hlen. lia.
  - intros specs E. apply (Hbad (spec :: specs)). simpl. now rewrite E.
Qed.

(** [main] rejects every other command line: it only prints (the last line
    being the syntax), allocates nothing, calls nothing of the UI, and exits
    with 1. *)
Theorem main_rejects_other_arguments (env : Nav.environment) (argv : list string)
    (st : Nav.state) :
  (forall specs, tail argv <> Nav.option_pairs specs) ->
  exists msgs,
    Nav.main env argv st =
    Some (1, Nav.mk_state (Nav.navigators st) (Nav.avail st)
               (Nav.trace st ++ map Nav.EvPrintf msgs ++ [Nav.EvPrintf Nav.Syntax])).
Proof.
  intros Hbad.
  destruct (main_options_rejects (length (tail argv)) (tail argv)
              (Nav.UI_CONSOLE_DEFAULT env) st (le_n _) Hbad) as (msgs & Hrun).
  exists msgs. unfold Nav.main. now rewrite (nav_bind_some _ _ _ _ _ Hrun).
Qed.

Lemma main_rejects_other_arguments_witness :
  exists msgs,
    Nav.main Nav.working_ui ["nav"; "-d"]%string (Nav.initial 1) =
    Some (1, Nav.mk_state (Nav.navigators (Nav.initial 1)) (Nav.avail (Nav.initial 1))
               (Nav.trace (Nav.initial 1) ++ map Nav.EvPrintf msgs ++ [Nav.EvPrintf Nav.Syntax])).
Proof.
  apply (main_rejects_other_arguments Nav.working_ui ["nav"; "-d"]%string (Nav.initial 1)).
  intros specs. destruct specs as [| x [| y ys]]; discriminate.
Defined.

(** * The display server's clients *)

(** ** Walking the window list *)

Lemma display_list_next_app (link : ptr) (pre ws : list ptr) :
  ~ In link pre ->
  Display.list_next link (pre ++ link :: ws) = hd NULL ws.
Proof.
  induction pre as [| x pre IH]; intros Hnot; simpl.
  - now rewrite N.eqb_refl.
  - destruct (N.eqb x link) eqn:E.
    + apply N.eqb_eq in E. exfalso. apply Hnot. now left.
    + apply IH. intros Hin. apply Hnot. now right.
Qed.

(** The loop of [ds_client_find_window] from any position of the list on. *)
Lemma display_find_loop (client_p : ptr) (c : Display.ds_client_t) (wnd_id : Z)
    (st : Display.state) :
  Display.client_windows_ok st client_p c ->
  forall (ws pre : list ptr) (steps : nat) (t : list Display.call),
    Display.windows c = pre ++ ws ->
    (length ws < steps)%nat ->
    exists t',
      Display.find_window_loop steps (hd NULL ws) wnd_id (Display.with_trace t st) =
        Some (Display.first_with_id st wnd_id ws, Display.with_trace (t ++ t') st) /\
      forallb Display.is_printf t' = true.
Proof.
  intros (Hc & Hnd & Hnull & Hlive).
  induction ws as [| w ws' IH]; intros pre steps t Hsplit Hsteps.
  - destruct steps as [| k]; [simpl in Hsteps; lia |].
    exists []. simpl. rewrite app_nil_r. split; reflexivity.
  - destruct steps as [| k]; [simpl in Hsteps; lia |].
    assert (Hin : In w (Display.windows c)).
    { rewrite Hsplit. apply in_or_app. right. now left. }
    assert (Hw : w <> NULL) by (intros ->; contradiction).
    destruct (Hlive w Hin) as (v & Hv & Hvc).
    simpl hd. simpl Display.find_window_loop. rewrite (is_null_false _ Hw).
    unfold Display.bind at 1, Display.load_window at 1. simpl Display.wnds. rewrite Hv.
    unfold Display.bind at 1, Display.emit at 1. simpl.
    unfold Display.first_with_id. simpl List.find. rewrite Hv.
    destruct (Z.eqb (Display.id v) wnd_id) eqn:E.
    + exists [Display.EvPrintfWnd w (Display.id v)]. split; reflexivity.
    + unfold Display.bind at 1, Display.ds_client_next_window,
        Display.bind at 1, Display.load_window at 1. simpl Display.wnds. rewrite Hv.
      unfold Display.bind at 1, Display.load_client at 1. simpl Display.clients.
      rewrite Hvc, Hc. unfold Display.ret at 1.
      assert (Hnext : Display.list_next w (Display.windows c) = hd NULL ws').
      { rewrite Hsplit. apply display_list_next_app.
        rewrite Hsplit in Hnd. apply NoDup_app in Hnd as (_ & Hdisj & _).
        intros Hpre. apply (Hdisj w); [now apply list_elem_of_In | now left]. }
      rewrite Hnext.
      destruct (IH (pre ++ [w]) k (t ++ [Display.EvPrintfWnd w (Display.id v)]))
        as (t' & Hrun & Hpr).
      { rewrite Hsplit, <- app_assoc. reflexivity. }
      { simpl in Hsteps. lia. }
      exists (Display.EvPrintfWnd w (Display.id v) :: t').
      split; [| exact Hpr].
      change (Display.mk_state (Display.wnds st) (Display.clients st) (Display.displays st)
                (Display.wevents st) (Display.avail st)
                (t ++ [Display.EvPrintfWnd w (Display.id v)]))
        with (Display.with_trace (t ++ [Display.EvPrintfWnd w (Display.id v)]) st).
      rewrite Hrun. unfold Display.first_with_id. now rewrite <- app_assoc.
Qed.

Lemma display_first_with_id_found (st : Display.state) (wnd_id : Z) (ws : list ptr) :
  Display.first_with_id st wnd_id ws <> NULL ->
  In (Display.first_with_id st wnd_id ws) ws /\
  Display.wnd_id_of st (Display.first_with_id st wnd_id ws) = Some wnd_id.
Proof.
  unfold Display.first_with_id, Display.wnd_id_of.
  destruct (List.find _ ws) as [w |] eqn:F; [| congruence].
  intros _. apply List.find_some in F as [Hin Hid]. split; [exact Hin |].
  destruct (Display.wnds st !! w) as [v |]; [| discriminate].
  apply Z.eqb_eq in Hid. subst wnd_id. reflexivity.
Qed.

Lemma display_first_with_id_none (st : Display.state) (wnd_id : Z) (ws : list ptr) :
  ~ In NULL ws ->
  Display.first_with_id st wnd_id ws = NULL ->
  forall w, In w ws -> Display.wnd_id_of st w <> Some wnd_id.
Proof.
  unfold Display.first_with_id, Display.wnd_id_of. intros Hnull.
  destruct (List.find _ ws) as [w0 |] eqn:F.
  - intros ->. apply List.find_some in F as [Hin _]. contradiction.
  - intros _ w Hin Hid. pose proof (List.find_none _ _ F w Hin) as Hno. simpl in Hno.
    destruct (Display.wnds st !! w) as [v |]; [| discriminate].
    simpl in Hid. injection Hid as Hid. rewrite Hid, Z.eqb_refl in Hno. discriminate Hno.
Qed.

(** [ds_client_find_window] on a well-kept window list, given more loop
    iterations than the list has windows, returns: the result is the first
    window of the list, in list order, whose identifier is the one asked for,
    and [NULL] exactly when no window of the list has it.  Nothing but the
    debug output is added to the state. *)
Theorem find_window_returns_first_match (steps : nat) (client_p : ptr)
    (c : Display.ds_client_t) (wnd_id : Z) (st : Display.state) :
  Display.client_windows_ok st client_p c ->
  (length (Display.windows c) < steps)%nat ->
  exists r t',
    Display.ds_client_find_window steps client_p wnd_id st =
      Some (r, Display.with_trace (Display.trace st ++ t') st) /\
    forallb Display.is_printf t' = true /\
    r = Display.first_with_id st wnd_id (Display.windows c) /\
    (r <> NULL -> In r (Display.windows c) /\ Display.wnd_id_of st r = Some wnd_id) /\
    (r = NULL -> forall w, In w (Display.windows c) -> Display.wnd_id_of st w <> Some wnd_id).
Proof.
  intros Hok Hsteps.
  destruct (display_find_loop client_p c wnd_id st Hok (Display.windows c) [] steps
              (Display.trace st ++ [Display.EvPrintfFind wnd_id]) eq_refl Hsteps)
    as (t' & Hrun & Hpr).
  exists (Display.first_with_id st wnd_id (Display.windows c)),
         (Display.EvPrintfFind wnd_id :: t').
  destruct Hok as (Hc & Hnd & Hnull & Hlive).
  split.
  { unfold Display.ds_client_find_window, Display.bind at 1, Display.emit.
    unfold Display.bind at 1, Display.ds_client_first_window, Display.bind at 1,
      Display.load_client. simpl Display.clients. rewrite Hc. unfold Display.ret at 1.
    unfold Display.list_first.
    change (Display.mk_state (Display.wnds st) (Display.clients st) (Display.displays st)
              (Display.wevents st) (Display.avail st)
              (Display.trace st ++ [Display.EvPrintfFind wnd_id]))
      with (Display.with_trace (Display.trace st ++ [Display.EvPrintfFind wnd_id]) st).
    rewrite Hrun. now rewrite <- app_assoc. }
  split; [exact Hpr |]. split; [reflexivity |].
  split; [apply display_first_with_id_found | now apply display_first_with_id_none].
Qed.

Lemma display_sample_windows_ok :
  Display.client_windows_ok Display.sample_state 50%N
    (Display.mk_client 60%N [1%N; 2%N] [] 90%N 91%N).
Proof.
  split; [reflexivity |].
  split.
  { apply NoDup_cons_2; [| apply NoDup_singleton].
    rewrite list_elem_of_In. simpl. intuition discriminate. }
  split; [simpl; intuition discriminate |].
  intros w [<- | [<- | []]]; eexists; split; reflexivity.
Qed.

Lemma find_window_returns_first_match_witness :
  exists r t',
    Display.ds_client_find_window 3 50%N 8 Display.sample_state =
      Some (r, Display.with_trace (Display.trace Display.sample_state ++ t') Display.sample_state) /\
    forallb Display.is_printf t' = true /\
    r = Display.first_with_id Display.sample_state 8 [1%N; 2%N] /\
    (r <> NULL -> In r [1%N; 2%N] /\ Display.wnd_id_of Display.sample_state r = Some 8) /\
    (r = NULL -> forall w, In w [1%N; 2%N] -> Display.wnd_id_of Display.sample_state w <> Some 8).
Proof.
  apply (find_window_returns_first_match 3 50%N
           (Display.mk_client 60%N [1%N; 2%N] [] 90%N 91%N) 8 Display.sample_state
           display_sample_windows_ok).
  simpl. lia.
Defined.

(** [ds_client_find_window] as an equation, for use in what follows. *)
Lemma display_find_window_runs (steps : nat) (client_p : ptr) (c : Display.ds_client_t)
    (wnd_id : Z) (st : Display.state) :
  Display.client_windows_ok st client_p c ->
  (length (Display.windows c) < steps)%nat ->
  exists t',
    Display.ds_client_find_window steps client_p wnd_id st =
      Some (Display.first_with_id st wnd_id (Display.windows c),
            Display.with_trace (Display.trace st ++ t') st).
Proof.
  intros Hok Hsteps.
  destruct (display_find_loop client_p c wnd_id st Hok (Display.windows c) [] steps
              (Display.trace st ++ [Display.EvPrintfFind wnd_id]) eq_refl Hsteps)
    as (t' & Hrun & _).
  exists (Display.EvPrintfFind wnd_id :: t').
  destruct Hok as (Hc & _).
  unfold Display.ds_client_find_window, Display.bind at 1, Display.emit.
  unfold Display.bind at 1, Display.ds_client_first_window, Display.bind at 1,
    Display.load_client. simpl Display.clients. rewrite Hc. unfold Display.ret at 1.
  unfold Display.list_first.
  change (Display.mk_state (Display.wnds st) (Display.clients st) (Display.displays st)
            (Display.wevents st) (Display.avail st)
            (Display.trace st ++ [Display.EvPrintfFind wnd_id]))
    with (Display.with_trace (Display.trace st ++ [Display.EvPrintfFind wnd_id]) st).
  rewrite Hrun. now rewrite <- app_assoc.
Qed.

(** ** Adding a window *)

Lemma display_mem_false (p : ptr) (l : list ptr) :
  Display.mem p l = false -> ~ In p l.
Proof.
  unfold Display.mem. intros H Hin.
  assert (existsb (N.eqb p) l = true); [| congruence].
  apply existsb_exists. exists p. split; [exact Hin | apply N.eqb_refl].
Qed.

Lemma display_link_unused (wnd client_p : ptr) (c : Display.ds_client_t) (st : Display.state) :
  Display.link_used wnd st = false ->
  Display.clients st !! client_p = Some c ->
  ~ In wnd (Display.windows c).
Proof.
  unfold Display.link_used. intros H Hc. apply display_mem_false.
  destruct (Display.mem wnd (Display.windows c)) eqn:E; [| reflexivity].
  assert (existsb (fun pc => Display.mem wnd (Display.windows (snd pc)))
            (map_to_list (Display.clients st)) = true); [| congruence].
  apply existsb_exists. exists (client_p, c). split; [| exact E].
  apply list_elem_of_In, elem_of_map_to_list. exact Hc.
Qed.

(** The state [ds_client_add_window] leaves. *)
Lemma display_add_window_runs (env : Display.environment) (client_p wnd : ptr)
    (w0 : Display.ds_window_t) (c : Display.ds_client_t) (d : Display.ds_display_t)
    (st : Display.state) :
  Display.wnds st !! wnd = Some w0 ->
  Display.client w0 = NULL ->
  Display.link_used wnd st = false ->
  Display.clients st !! client_p = Some c ->
  Display.displays st !! Display.display c = Some d ->
  Display.ds_client_add_window env client_p wnd st =
    Some (EOK,
          Display.mk_state
            (<[wnd := Display.mk_window client_p (Display.next_wnd_id d)]> (Display.wnds st))
            (<[client_p := Display.set_windows (Display.windows c ++ [wnd]) c]>
               (Display.clients st))
            (<[Display.display c :=
                 Display.mk_display ((Display.next_wnd_id d + 1) mod Display.wnd_id_modulus env)]>
               (Display.displays st))
            (Display.wevents st) (Display.avail st) (Display.trace st)).
Proof.
  intros Hw Hwc Hused Hc Hd.
  destruct st as [ws cs ds es a t]. simpl in Hw, Hc, Hd.
  unfold Display.ds_client_add_window.
  unfold Display.bind at 1, Display.load_window at 1. simpl Display.wnds. rewrite Hw.
  rewrite Hwc. simpl Display.assert_.
  unfold Display.bind at 1, Display.ret at 1.
  unfold Display.bind at 1. rewrite Hused. simpl Display.assert_.
  unfold Display.bind at 1, Display.ret at 1.
  unfold Display.bind at 1, Display.store_window at 1. simpl Display.wnds. rewrite Hw.
  unfold Display.bind at 1, Display.load_client at 1. simpl Display.clients. rewrite Hc.
  unfold Display.bind at 1, Display.load_display at 1. simpl Display.displays. rewrite Hd.
  unfold Display.bind at 1, Display.load_window at 1. simpl Display.wnds.
  rewrite lookup_insert_eq.
  unfold Display.bind at 1, Display.store_window at 1. simpl Display.wnds.
  rewrite lookup_insert_eq, insert_insert_eq.
  unfold Display.bind at 1, Display.store_display at 1. simpl Display.displays. rewrite Hd.
  unfold Display.bind at 1, Display.load_client at 1. simpl Display.clients. rewrite Hc.
  unfold Display.bind at 1, Display.store_client at 1. simpl Display.clients. rewrite Hc.
  reflexivity.
Qed.

Lemma display_ids_unchanged (st st' : Display.state) (wnd : ptr) (ws : list ptr) :
  (forall w, w <> wnd -> Display.wnds st' !! w = Display.wnds st !! w) ->
  ~ In wnd ws ->
  map (Display.wnd_id_of st') ws = map (Display.wnd_id_of st) ws.
Proof.
  intros Hsame Hnot. apply map_ext_in. intros w Hin. unfold Display.wnd_id_of.
  rewrite Hsame; [reflexivity |]. intros ->. contradiction.
Qed.

(** What [ds_client_add_window] does and keeps. *)
Lemma display_add_window_outcome (env : Display.environment) (client_p wnd : ptr)
    (w0 : Display.ds_window_t) (c : Display.ds_client_t) (d : Display.ds_display_t)
    (st : Display.state) :
  Display.client_windows_ok st client_p c ->
  Display.ids_ok env st c d ->
  wnd <> NULL ->
  Display.wnds st !! wnd = Some w0 ->
  Display.client w0 = NULL ->
  Display.link_used wnd st = false ->
  Display.next_wnd_id d + 1 < Display.wnd_id_modulus env ->
  exists st' c' d',
    Display.ds_client_add_window env client_p wnd st = Some (EOK, st') /\
    Display.windows c' = Display.windows c ++ [wnd] /\
    Display.wnds st' !! wnd = Some (Display.mk_window client_p (Display.next_wnd_id d)) /\
    Display.next_wnd_id d' = Display.next_wnd_id d + 1 /\
    Display.client_windows_ok st' client_p c' /\
    Display.ids_ok env st' c' d'.
Proof.
  intros (Hc & Hnd & Hnull & Hlive) (Hd & Hrange & Hbelow & Hdistinct) Hwnd Hw Hwc Hused Hwrap.
  pose proof (display_link_unused wnd client_p c st Hused Hc) as Hnotin.
  pose proof (display_add_window_runs env client_p wnd w0 c d st Hw Hwc Hused Hc Hd) as Hrun.
  set (st' := Display.mk_state _ _ _ _ _ _) in Hrun.
  exists st', (Display.set_windows (Display.windows c ++ [wnd]) c),
         (Display.mk_display (Display.next_wnd_id d + 1)).
  split; [exact Hrun |].
  split; [reflexivity |].
  split; [apply lookup_insert_eq |].
  split; [reflexivity |].
  assert (Hother : forall w, w <> wnd -> Display.wnds st' !! w = Display.wnds st !! w).
  { intros w Hne. apply lookup_insert_ne. congruence. }
  split.
  - split; [apply lookup_insert_eq |]. simpl.
    split.
    { apply NoDup_app. split; [exact Hnd |]. split; [| apply NoDup_singleton].
      intros x Hx Hx'. apply list_elem_of_In in Hx. apply list_elem_of_singleton in Hx'.
      subst x. contradiction. }
    split.
    { intros Hin. apply in_app_or in Hin as [Hin | [Hin | []]]; [contradiction | congruence]. }
    intros w Hin. apply in_app_or in Hin as [Hin | [<- | []]].
    + destruct (Hlive w Hin) as (v & Hv & Hvc). exists v. split; [| exact Hvc].
      rewrite Hother; [exact Hv |]. intros ->. contradiction.
    + eexists. split; [apply lookup_insert_eq | reflexivity].
  - split.
    { simpl. rewrite Z.mod_small by lia. apply lookup_insert_eq. }
    split; [simpl; lia |].
    split.
    { simpl. intros w v Hin Hv. apply in_app_or in Hin as [Hin | [<- | []]].
      - rewrite Hother in Hv by (intros ->; contradiction).
        specialize (Hbelow w v Hin Hv). lia.
      - simpl in Hv. rewrite lookup_insert_eq in Hv. injection Hv as <-. simpl. lia. }
    simpl. rewrite map_app. simpl.
    rewrite (display_ids_unchanged st st' wnd (Display.windows c) Hother Hnotin).
    apply NoDup_app. split; [exact Hdistinct |]. split; [| apply NoDup_singleton].
    intros o Ho Ho'. apply list_elem_of_singleton in Ho'. subst o.
    apply list_elem_of_In, in_map_iff in Ho as (w & Hid & Hin).
    unfold Display.wnd_id_of in Hid. simpl in Hid.
    rewrite lookup_insert_eq in Hid. simpl in Hid.
    destruct (Display.wnds st !! w) as [v |] eqn:Hv; [| discriminate].
    simpl in Hid. injection Hid as Hid.
    specialize (Hbelow w v Hin Hv). lia.
Qed.

(** [ds_client_add_window] always returns [EOK] and keeps the window list
    and the identifiers in order: given a live window that belongs to no
    client and is linked nowhere, and a display counter that is not about to
    wrap around, the window is appended at the tail of the client's list,
    gets the counter's value as its identifier, the counter moves on by one,
    and the list is again free of duplicates with every window pointing back
    to the client and all identifiers distinct and below the counter. *)
Theorem add_window_keeps_list_and_ids (env : Display.environment) (client_p wnd : ptr)
    (w0 : Display.ds_window_t) (c : Display.ds_client_t) (d : Display.ds_display_t)
    (st : Display.state) :
  Display.client_windows_ok st client_p c ->
  Display.ids_ok env st c d ->
  wnd <> NULL ->
  Display.wnds st !! wnd = Some w0 ->
  Display.client w0 = NULL ->
  Display.link_used wnd st = false ->
  Display.next_wnd_id d + 1 < Display.wnd_id_modulus env ->
  exists st' c' d',
    Display.ds_client_add_window env client_p wnd st = Some (EOK, st') /\
    Display.windows c' = Display.windows c ++ [wnd] /\
    Display.wnds st' !! wnd = Some (Display.mk_window client_p (Display.next_wnd_id d)) /\
    Display.next_wnd_id d' = Display.next_wnd_id d + 1 /\
    Display.client_windows_ok st' client_p c' /\
    Display.ids_ok env st' c' d'.
Proof. apply display_add_window_outcome. Qed.

Lemma display_sample_ids_ok :
  Display.ids_ok Display.sample_env Display.sample_state
    (Display.mk_client 60%N [1%N; 2%N] [] 90%N 91%N) (Display.mk_display 9).
Proof.
  split; [reflexivity |]. split; [simpl; lia |].
  split.
  { intros w v [<- | [<- | []]] Hv; vm_compute in Hv; injection Hv as <-; simpl; lia. }
  apply NoDup_cons_2; [| apply NoDup_singleton].
  rewrite list_elem_of_In. vm_compute. intuition discriminate.
Qed.

Lemma add_window_keeps_list_and_ids_witness :
  exists st' c' d',
    Display.ds_client_add_window Display.sample_env 50%N 3%N Display.sample_state =
      Some (EOK, st') /\
    Display.windows c' = [1%N; 2%N] ++ [3%N] /\
    Display.wnds st' !! 3%N = Some (Display.mk_window 50%N 9) /\
    Display.next_wnd_id d' = 9 + 1 /\
    Display.client_windows_ok st' 50%N c' /\
    Display.ids_ok Display.sample_env st' c' d'.
Proof.
  apply (add_window_keeps_list_and_ids Display.sample_env 50%N 3%N
           (Display.mk_window NULL 0) (Display.mk_client 60%N [1%N; 2%N] [] 90%N 91%N)
           (Display.mk_display 9) Display.sample_state
           display_sample_windows_ok display_sample_ids_ok).
  - discriminate.
  - reflexivity.
  - reflexivity.
  - vm_compute. reflexivity.
  - vm_compute. reflexivity.
Defined.

Lemma display_find_app {A} (f : A -> bool) (l k : list A) :
  List.find f (l ++ k) = match List.find f l with Some x => Some x | None => List.find f k end.
Proof. induction l as [| x l IH]; simpl; [reflexivity |]. now destruct (f x). Qed.

Lemma display_find_ext {A} (f g : A -> bool) (l : list A) :
  (forall x, In x l -> f x = g x) -> List.find f l = List.find g l.
Proof.
  induction l as [| x l IH]; intros H; simpl; [reflexivity |].
  rewrite (H x) by now left. destruct (g x); [reflexivity |].
  apply IH. intros y Hy. apply H. now right.
Qed.

(** After [ds_client_add_window], looking up the identifier the window was
    given finds that window, and looking up any other identifier finds what
    it found before the window was added. *)
Theorem add_window_then_find (env : Display.environment) (steps : nat) (client_p wnd : ptr)
    (w0 : Display.ds_window_t) (c : Display.ds_client_t) (d : Display.ds_display_t)
    (st : Display.state) (wnd_id : Z) :
  Display.client_windows_ok st client_p c ->
  Display.ids_ok env st c d ->
  wnd <> NULL ->
  Display.wnds st !! wnd = Some w0 ->
  Display.client w0 = NULL ->
  Display.link_used wnd st = false ->
  Display.next_wnd_id d + 1 < Display.wnd_id_modulus env ->
  (length (Display.windows c) + 1 < steps)%nat ->
  exists st1 r st2,
    Display.ds_client_add_window env client_p wnd st = Some (EOK, st1) /\
    Display.ds_client_find_window steps client_p wnd_id st1 = Some (r, st2) /\
    (wnd_id = Display.next_wnd_id d -> r = wnd) /\
    (wnd_id <> Display.next_wnd_id d ->
       r = Display.first_with_id st wnd_id (Display.windows c)).
Proof.
  intros Hok Hids Hwnd Hw Hwc Hused Hwrap Hsteps.
  pose proof (display_link_unused wnd client_p c st Hused (proj1 Hok)) as Hnotin.
  destruct (display_add_window_outcome env client_p wnd w0 c d st Hok Hids Hwnd Hw Hwc Hused Hwrap)
    as (st1 & c' & d' & Hrun & Hws & Hnew & _ & Hok1 & _).
  assert (Hother : forall w, w <> wnd -> Display.wnds st1 !! w = Display.wnds st !! w).
  { intros w Hne.
    rewrite (display_add_window_runs env client_p wnd w0 c d st Hw Hwc Hused (proj1 Hok)
               (proj1 Hids)) in Hrun.
    injection Hrun as <-. simpl. apply lookup_insert_ne. congruence. }
  destruct (display_find_window_runs steps client_p c' wnd_id st1 Hok1) as (t' & Hfind).
  { rewrite Hws, length_app. simpl. lia. }
  exists st1. do 2 eexists. split; [exact Hrun |]. split; [exact Hfind |].
  rewrite Hws. unfold Display.first_with_id. rewrite display_find_app.
  rewrite (display_find_ext _ (fun w => match Display.wnds st !! w with
                                        | Some v => Z.eqb (Display.id v) wnd_id
                                        | None => false
                                        end) (Display.windows c)).
  2:{ intros w Hin. rewrite Hother; [reflexivity |]. intros ->. contradiction. }
  simpl. rewrite Hnew. simpl.
  destruct Hids as (_ & _ & Hbelow & _).
  split.
  - intros ->. rewrite Z.eqb_refl.
    destruct (List.find _ (Display.windows c)) as [w |] eqn:F; [| reflexivity].
    apply List.find_some in F as [Hin Hid].
    destruct (Display.wnds st !! w) as [v |] eqn:Hv; [| discriminate].
    apply Z.eqb_eq in Hid. specialize (Hbelow w v Hin Hv). lia.
  - intros Hne. apply Z.eqb_neq in Hne. rewrite Z.eqb_sym, Hne.
    now destruct (List.find _ (Display.windows c)).
Qed.

Lemma add_window_then_find_witness :
  exists st1 r st2,
    Display.ds_client_add_window Display.sample_env 50%N 3%N Display.sample_state =
      Some (EOK, st1) /\
    Display.ds_client_find_window 4 50%N 9 st1 = Some (r, st2) /\
    (9 = 9 -> r = 3%N) /\
    (9 <> 9 -> r = Display.first_with_id Display.sample_state 9 [1%N; 2%N]).
Proof.
  apply (add_window_then_find Display.sample_env 4 50%N 3%N
           (Display.mk_window NULL 0) (Display.mk_client 60%N [1%N; 2%N] [] 90%N 91%N)
           (Display.mk_display 9) Display.sample_state 9
           display_sample_windows_ok display_sample_ids_ok).
  - discriminate.
  - reflexivity.
  - reflexivity.
  - vm_compute. reflexivity.
  - vm_compute. reflexivity.
  - simpl. lia.
Defined.

(** ** Removing a window *)

Lemma display_remove_window_runs (wnd : ptr) (wv : Display.ds_window_t) (st : Display.state) :
  Display.wnds st !! wnd = Some wv ->
  Display.ds_client_remove_window wnd st =
    Some (tt,
          Display.mk_state
            (<[wnd := Display.mk_window NULL (Display.id wv)]> (Display.wnds st))
            ((fun c => Display.set_windows (Display.list_remove wnd (Display.windows c)) c)
               <$> Display.clients st)
            (Display.displays st) (Display.wevents st) (Display.avail st) (Display.trace st)).
Proof.
  intros Hw. destruct st as [ws cs ds es a t]. simpl in Hw.
  unfold Display.ds_client_remove_window.
  unfold Display.bind at 1, Display.load_window at 1. simpl Display.wnds. rewrite Hw.
  unfold Display.bind at 1. simpl.
  unfold Display.store_window. simpl. now rewrite Hw.
Qed.

Lemma display_list_remove_In (wnd w : ptr) (l : list ptr) :
  In w (Display.list_remove wnd l) <-> In w l /\ w <> wnd.
Proof.
  unfold Display.list_remove. rewrite List.filter_In.
  split; intros [H1 H2]; (split; [exact H1 |]).
  - intros ->. rewrite N.eqb_refl in H2. discriminate.
  - apply Bool.negb_true_iff. now apply N.eqb_neq.
Qed.

Lemma display_list_remove_length (wnd : ptr) (l : list ptr) :
  (length (Display.list_remove wnd l) <= length l)%nat.
Proof.
  induction l as [| x l IH]; simpl; [lia |].
  destruct (negb (N.eqb x wnd)); simpl; lia.
Qed.

Lemma display_distinct_ids {A B} (f : A -> B) (l : list A) (a b : A) :
  NoDup (map f l) -> In a l -> In b l -> f a = f b -> a = b.
Proof.
  induction l as [| x l IH]; intros Hnd Ha Hb Hf; [contradiction |].
  simpl in Hnd. apply NoDup_cons in Hnd as [Hx Hnd].
  destruct Ha as [-> | Ha], Hb as [-> | Hb].
  - reflexivity.
  - exfalso. apply Hx. rewrite Hf. apply list_elem_of_In, in_map, Hb.
  - exfalso. apply Hx. rewrite <- Hf. apply list_elem_of_In, in_map, Ha.
  - now apply IH.
Qed.

(** [ds_client_remove_window] on a window of the client's list: the window
    is unlinked and no longer belongs to a client, the rest of the list keeps
    its order and stays well kept; afterwards the removed window's
    identifier is found nowhere in the list, and every other identifier finds
    what it found before. *)
Theorem remove_window_then_find (env : Display.environment) (steps : nat) (client_p wnd : ptr)
    (wv : Display.ds_window_t) (c : Display.ds_client_t) (d : Display.ds_display_t)
    (st : Display.state) :
  Display.client_windows_ok st client_p c ->
  Display.ids_ok env st c d ->
  Display.wnds st !! wnd = Some wv ->
  In wnd (Display.windows c) ->
  (length (Display.windows c) < steps)%nat ->
  exists st1 c',
    Display.ds_client_remove_window wnd st = Some (tt, st1) /\
    Display.windows c' = Display.list_remove wnd (Display.windows c) /\
    ~ In wnd (Display.windows c') /\
    Display.wnds st1 !! wnd = Some (Display.mk_window NULL (Display.id wv)) /\
    Display.client_windows_ok st1 client_p c' /\
    forall wnd_id,
      exists r st2,
        Display.ds_client_find_window steps client_p wnd_id st1 = Some (r, st2) /\
        (wnd_id = Display.id wv -> r = NULL) /\
        (wnd_id <> Display.id wv ->
           r = Display.first_with_id st wnd_id (Display.windows c)).
Proof.
  intros (Hc & Hnd & Hnull & Hlive) (_ & _ & _ & Hdistinct) Hw Hin Hsteps.
  pose proof (display_remove_window_runs wnd wv st Hw) as Hrun.
  set (st1 := Display.mk_state _ _ _ _ _ _) in Hrun.
  set (c' := Display.set_windows (Display.list_remove wnd (Display.windows c)) c).
  assert (Hother : forall w, w <> wnd -> Display.wnds st1 !! w = Display.wnds st !! w).
  { intros w Hne. apply lookup_insert_ne. congruence. }
  assert (Hok1 : Display.client_windows_ok st1 client_p c').
  { split.
    { simpl. rewrite lookup_fmap, Hc. reflexivity. }
    split.
    { simpl. apply NoDup_ListNoDup, List.NoDup_filter, NoDup_ListNoDup, Hnd. }
    split.
    { simpl. intros H. apply display_list_remove_In in H as [H _]. contradiction. }
    simpl. intros w H. apply display_list_remove_In in H as [H Hne].
    destruct (Hlive w H) as (v & Hv & Hvc). exists v. split; [| exact Hvc].
    now rewrite Hother. }
  exists st1, c'. split; [exact Hrun |]. split; [reflexivity |].
  split.
  { simpl. intros H. apply display_list_remove_In in H as [_ H]. now apply H. }
  split; [apply lookup_insert_eq |].
  split; [exact Hok1 |].
  intros wnd_id.
  destruct (display_find_window_runs steps client_p c' wnd_id st1 Hok1) as (t' & Hfind).
  { simpl. pose proof (display_list_remove_length wnd (Display.windows c)). lia. }
  do 2 eexists. split; [exact Hfind |].
  simpl Display.windows. unfold Display.first_with_id.
  split.
  - intros ->.
    destruct (List.find _ (Display.list_remove wnd (Display.windows c))) as [w |] eqn:F;
      [| reflexivity].
    exfalso. apply List.find_some in F as [Hwin Hid].
    apply display_list_remove_In in Hwin as [Hwin Hne].
    rewrite (Hother w Hne) in Hid.
    destruct (Display.wnds st !! w) as [v |] eqn:Hv; [| discriminate].
    apply Z.eqb_eq in Hid. apply Hne.
    apply (display_distinct_ids (Display.wnd_id_of st) (Display.windows c) w wnd Hdistinct Hwin Hin).
    unfold Display.wnd_id_of. rewrite Hv, Hw. simpl. now rewrite Hid.
  - intros Hne. f_equal.
    clear Hfind Hok1 Hsteps Hdistinct Hnd Hnull Hlive Hin c' Hc.
    induction (Display.windows c) as [| x l IH]; [reflexivity |].
    simpl. destruct (N.eqb x wnd) eqn:E; simpl.
    + apply N.eqb_eq in E. subst x. rewrite Hw.
      apply Z.eqb_neq in Hne. rewrite Z.eqb_sym, Hne. exact IH.
    + apply N.eqb_neq in E. pose proof (Hother x E) as Hx. simpl in Hx. rewrite Hx.
      destruct (Display.wnds st !! x) as [v |]; [| exact IH].
      destruct (Z.eqb (Display.id v) wnd_id); [reflexivity | exact IH].
Qed.

Lemma remove_window_then_find_witness :
  exists st1 c',
    Display.ds_client_remove_window 1%N Display.sample_state = Some (tt, st1) /\
    Display.windows c' = Display.list_remove 1%N [1%N; 2%N] /\
    ~ In 1%N (Display.windows c') /\
    Display.wnds st1 !! 1%N = Some (Display.mk_window NULL 7) /\
    Display.client_windows_ok st1 50%N c' /\
    forall wnd_id,
      exists r st2,
        Display.ds_client_find_window 3 50%N wnd_id st1 = Some (r, st2) /\
        (wnd_id = 7 -> r = NULL) /\
        (wnd_id <> 7 -> r = Display.first_with_id Display.sample_state wnd_id [1%N; 2%N]).
Proof.
  apply (remove_window_then_find Display.sample_env 3 50%N 1%N (Display.mk_window 50%N 7)
           (Display.mk_client 60%N [1%N; 2%N] [] 90%N 91%N) (Display.mk_display 9)
           Display.sample_state display_sample_windows_ok display_sample_ids_ok).
  - reflexivity.
  - simpl. auto.
  - simpl. lia.
Defined.

(** ** The event queue *)

Lemma display_fresh_block_spec (st : Display.state) :
  Display.fresh_block st <> NULL /\
  Display.wevents st !! Display.fresh_block st = None /\
  Display.clients st !! Display.fresh_block st = None.
Proof.
  unfold Display.fresh_block.
  set (X := ({[NULL]} ∪ dom (Display.wnds st) ∪ dom (Display.clients st)
             ∪ dom (Display.displays st) ∪ dom (Display.wevents st) : gset N)).
  pose proof (is_fresh X) as Hf. subst X.
  rewrite !elem_of_union, elem_of_singleton, !elem_of_dom in Hf.
  split; [intros E; apply Hf; auto 10 |].
  split; apply eq_None_not_Some; intros E; apply Hf; auto 10.
Qed.




(** [ds_client_get_event] as an equation on a queue with a live first
    entry. *)
Lemma display_get_event_runs (env : Display.environment) (client_p e : ptr)
    (rest : list ptr) (we : Display.ds_window_ev_t) (c : Display.ds_client_t)
    (st : Display.state) :
  Display.clients st !! client_p = Some c ->
  Display.events c = e :: rest ->
  e <> NULL ->
  Display.wevents st !! e = Some we ->
  Display.ds_client_get_event env client_p st =
    Some ((EOK, Some (Display.window we, Display.event we)),
          Display.mk_state (Display.wnds st) (Display.clients st) (Display.displays st)
            (delete e (Display.wevents st)) (S (Display.avail st))
            (Display.trace st ++ [Display.EvFree e])).
Proof.
  intros Hc He Hnn Hwe.
  unfold Display.ds_client_get_event, Display.bind at 1, Display.load_client. rewrite Hc.
  rewrite He. cbv zeta. unfold Display.list_first. cbn [hd]. rewrite (is_null_false _ Hnn).
  unfold Display.bind at 1, Display.load_wevent. rewrite Hwe.
  unfold Display.bind, Display.free_wevent. rewrite Hwe. reflexivity.
Qed.

(** [ds_client_get_event]: on an empty queue it returns [ENOENT], stores
    nothing and changes nothing; on a queue whose first entry is live it
    returns [EOK] with that entry's window and event and frees the entry; the
    client's queue itself is left as it was. *)
Theorem get_event_reads_first_entry (env : Display.environment) (client_p : ptr)
    (c : Display.ds_client_t) (st : Display.state) :
  Display.clients st !! client_p = Some c ->
  match Display.events c with
  | [] => Display.ds_client_get_event env client_p st = Some ((Display.ENOENT env, None), st)
  | e :: rest =>
      forall we, e <> NULL -> Display.wevents st !! e = Some we ->
        exists st',
          Display.ds_client_get_event env client_p st =
            Some ((EOK, Some (Display.window we, Display.event we)), st') /\
          Display.wevents st' = delete e (Display.wevents st) /\
          Display.clients st' = Display.clients st /\
          Display.wnds st' = Display.wnds st /\
          Display.trace st' = Display.trace st ++ [Display.EvFree e]
  end.
Proof.
  intros Hc. destruct (Display.events c) as [| e rest] eqn:He.
  - unfold Display.ds_client_get_event, Display.bind at 1, Display.load_client. rewrite Hc.
    rewrite He. reflexivity.
  - intros we Hnn Hwe. eexists.
    split; [apply (display_get_event_runs env client_p e rest we c st Hc He Hnn Hwe) |].
    repeat split; reflexivity.
Qed.

Lemma get_event_reads_first_entry_witness :
  Display.ds_client_get_event Display.sample_env 50%N Display.sample_state =
    Some ((Display.ENOENT Display.sample_env, None), Display.sample_state).
Proof.
  apply (get_event_reads_first_entry Display.sample_env 50%N
           (Display.mk_client 60%N [1%N; 2%N] [] 90%N 91%N) Display.sample_state).
  reflexivity.
Defined.



(** ** Creating a client *)

(** [ds_client_create]: without memory it returns [ENOMEM], stores no client
    and registers nothing with the display.  With memory it returns [EOK]
    and stores a client that was not live before, has no windows, an empty
    event queue and the callback and argument given; the display is told of
    the new client exactly once; no other client is touched. *)
Theorem client_create_registers_fresh_client (env : Display.environment)
    (display_p cb_p cb_arg_p : ptr) (st : Display.state) :
  match Display.avail st with
  | O =>
      Display.ds_client_create env display_p cb_p cb_arg_p st =
        Some ((Display.ENOMEM env, None),
              Display.with_trace (Display.trace st ++ [Display.EvCalloc NULL]) st)
  | S k =>
      exists p c st1,
        Display.ds_client_create env display_p cb_p cb_arg_p st = Some ((EOK, Some p), st1) /\
        p <> NULL /\ Display.clients st !! p = None /\
        Display.clients st1 !! p = Some c /\
        Display.windows c = [] /\ Display.events c = [] /\
        Display.cb c = cb_p /\ Display.cb_arg c = cb_arg_p /\
        (forall q, q <> p -> Display.clients st1 !! q = Display.clients st !! q) /\
        Display.trace st1 =
          Display.trace st ++ [Display.EvCalloc p; Display.EvDisplayAddClient display_p p]
  end.
Proof.
  destruct (Display.avail st) as [| k] eqn:Ha.
  - unfold Display.ds_client_create, Display.bind at 1, Display.calloc_client,
      Display.with_trace.
    rewrite Ha. reflexivity.
  - destruct (display_fresh_block_spec st) as (Hp & _ & Hfree).
    exists (Display.fresh_block st), (Display.mk_client NULL [] [] cb_p cb_arg_p). eexists.
    split.
    { unfold Display.ds_client_create, Display.bind at 1, Display.calloc_client.
      rewrite Ha. set (p := Display.fresh_block st) in *.
      rewrite (is_null_false _ Hp).
      repeat (unfold Display.bind at 1, Display.load_client at 1; simpl Display.clients;
              rewrite lookup_insert_eq;
              unfold Display.bind at 1, Display.store_client at 1; simpl Display.clients;
              rewrite lookup_insert_eq, insert_insert_eq).
      unfold Display.bind, Display.emit, Display.ret. simpl. reflexivity. }
    simpl. split; [exact Hp |]. split; [exact Hfree |].
    split; [apply lookup_insert_eq |].
    repeat (split; [reflexivity |]).
    split; [| now rewrite <- app_assoc].
    intros q Hq. apply lookup_insert_ne. congruence.
Qed.

(** * Thread contexts on ia64 *)

Lemma ia64_mask_bits (j : Z) :
  0 <= j ->
  Z.testbit (Ia64.wrap64 Ia64.PFM_MASK) j = (Z.leb 38 j && Z.ltb j 64)%bool.
Proof.
  intros Hj.
  replace (Ia64.wrap64 Ia64.PFM_MASK) with (Z.shiftl (Z.ones 26) 38) by reflexivity.
  destruct (Z.leb 38 j) eqn:E1.
  - apply Z.leb_le in E1. rewrite Z.shiftl_spec by lia.
    destruct (Z.ltb j 64) eqn:E2.
    + apply Z.ltb_lt in E2. rewrite Z.ones_spec_low by lia. reflexivity.
    + apply Z.ltb_ge in E2. rewrite Z.ones_spec_high by lia. reflexivity.
  - apply Z.leb_gt in E1. rewrite Z.shiftl_spec_low by lia. reflexivity.
Qed.

Lemma ia64_high_bits (x j : Z) : 0 <= x < 2 ^ 64 -> 64 <= j -> Z.testbit x j = false.
Proof.
  intros Hx Hj. destruct (Z.eq_dec x 0) as [-> | Hnz]; [apply Z.bits_0 |].
  apply Z.bits_above_log2; [lia |].
  apply Z.log2_lt_pow2; [lia |].
  apply Z.lt_le_trans with (2 ^ 64); [lia | apply Z.pow_le_mono_r; lia].
Qed.

(** [context_set] clears the low 38 bits of the saved [ar.pfs] (the previous
    frame marker) and keeps every bit above them, whatever the other
    arguments are: the new value is the old one rounded down to a multiple of
    2^38. *)
Theorem context_set_clears_frame_marker (item alignment : Z) (align_up : Z -> Z -> Z)
    (c : Ia64.context_t) (pc_ stack size tls : Z) :
  0 <= Ia64.ar_pfs c < 2 ^ 64 ->
  let c' := Ia64.context_set item alignment align_up c pc_ stack size tls in
  (forall i, 0 <= i ->
     Z.testbit (Ia64.ar_pfs c') i =
     if Z.ltb i 38 then false else Z.testbit (Ia64.ar_pfs c) i) /\
  Ia64.ar_pfs c' = Ia64.ar_pfs c - Ia64.ar_pfs c mod 2 ^ 38.
Proof.
  intros Hrange c'. subst c'. simpl Ia64.ar_pfs.
  assert (Hbit : forall i, 0 <= i ->
            Z.testbit (Z.land (Ia64.ar_pfs c) (Ia64.wrap64 Ia64.PFM_MASK)) i =
            if Z.ltb i 38 then false else Z.testbit (Ia64.ar_pfs c) i).
  { intros i Hi. rewrite Z.land_spec, ia64_mask_bits by exact Hi.
    destruct (Z.ltb i 38) eqn:E.
    - apply Z.ltb_lt in E. replace (Z.leb 38 i) with false by (symmetry; apply Z.leb_gt; lia).
      apply andb_false_r.
    - apply Z.ltb_ge in E. replace (Z.leb 38 i) with true by (symmetry; apply Z.leb_le; lia).
      simpl. destruct (Z.ltb i 64) eqn:E2; [apply andb_true_r |].
      apply Z.ltb_ge in E2. rewrite andb_false_r. symmetry.
      now apply ia64_high_bits. }
  split; [exact Hbit |].
  transitivity (Z.shiftl (Z.shiftr (Ia64.ar_pfs c) 38) 38).
  - apply Z.bits_inj'. intros i Hi. rewrite (Hbit i Hi).
    destruct (Z.ltb i 38) eqn:E.
    + apply Z.ltb_lt in E. now rewrite Z.shiftl_spec_low by lia.
    + apply Z.ltb_ge in E. rewrite Z.shiftl_spec, Z.shiftr_spec by lia.
      f_equal. lia.
  - rewrite Z.shiftl_mul_pow2, Z.shiftr_div_pow2 by lia.
    pose proof (Z.div_mod (Ia64.ar_pfs c) (2 ^ 38) ltac:(lia)). lia.
Qed.

Lemma context_set_clears_frame_marker_witness :
  let c' := Ia64.context_set 16 16 Ia64.align_up_div
              (Ia64.mk_context 0x8000003fffffffff 0 0 0 0 0 0 0 0 0 0 0 0 0 0 0 0 0 0 0 0)
              0x4000 0x10000 0x8000 0x20000 in
  (forall i, 0 <= i ->
     Z.testbit (Ia64.ar_pfs c') i =
     if Z.ltb i 38 then false else Z.testbit 0x8000003fffffffff i) /\
  Ia64.ar_pfs c' = 0x8000003fffffffff - 0x8000003fffffffff mod 2 ^ 38.
Proof.
  apply (context_set_clears_frame_marker 16 16 Ia64.align_up_div
           (Ia64.mk_context 0x8000003fffffffff 0 0 0 0 0 0 0 0 0 0 0 0 0 0 0 0 0 0 0 0)
           0x4000 0x10000 0x8000 0x20000).
  simpl. lia.
Defined.



